(** * The cursor-trail grid of [src/hooks/useWebGLGrid.ts]

    A shallow embedding of the [useWebGLGrid] hook: the trail recorder
    ([onMouseMove]), the render loop ([render], [tick], [startLoop]), the
    pointer-leave and resize handlers, the mount/unmount life cycle and the
    fragment shader [FRAG_SRC].

    Numbers.  A JavaScript [number] is modelled by an exact rational ([Q]):
    every value is finite and arithmetic does not round.  The shader, which
    needs a square root, is modelled over the real numbers ([R]).  Canvas
    dimensions, which the DOM keeps as integers, are in [Z]. *)

From Stdlib Require Import String Ascii.
From stdpp Require Import base list.
From Stdlib Require Import QArith Qminmax Reals Qreals Lia Lqa Lra.

Open Scope Q_scope.

(** ** Trail constants *)

Definition TRAIL_MAX : nat := 50.
Definition TRAIL_DURATION : Q := 500.
Definition TRAIL_MIN_DIST : Q := 8.

(** [interface TrailPoint { x; y; t }] *)
Record TrailPoint : Type := mkTrailPoint { x : Q; y : Q; t : Q }.

(** ** The browser objects the handlers read *)

(** The two fields of a [MouseEvent] that [onMouseMove] reads. *)
Record MouseEvent : Type := mkMouseEvent { clientX : Q; clientY : Q }.

(** The result of [container.getBoundingClientRect()]. *)
Record DOMRect : Type :=
  mkDOMRect { rect_left : Q; rect_top : Q; rect_width : Q; rect_height : Q }.

(** The calls made on the WebGL context by [render]. *)
Inductive GLCall : Type :=
| Viewport (vx vy vw vh : Z)
| Clear
| Uniform3fv (data : list Q)
| DrawArrays (first count : nat).

(** ** The state of one mounted effect

    The variables of the closure created by [useEffect] ([trail],
    [trailData], [rafId]), the canvas size the handlers read and write, the
    browser's list of pending animation-frame callbacks (every callback the
    hook registers is [tick], so a handle stands for it) and the calls made
    on the WebGL context, most recent first. *)
Record State : Type := mkState {
  trail : list TrailPoint;
  trailData : list Q;
  rafId : option nat;
  canvas_width : Z;
  canvas_height : Z;
  pending : list nat;
  next_handle : nat;
  gl_calls : list GLCall
}.

Definition set_trail (v : list TrailPoint) (s : State) : State :=
  mkState v (trailData s) (rafId s) (canvas_width s) (canvas_height s)
          (pending s) (next_handle s) (gl_calls s).

Definition set_trailData (v : list Q) (s : State) : State :=
  mkState (trail s) v (rafId s) (canvas_width s) (canvas_height s)
          (pending s) (next_handle s) (gl_calls s).

Definition set_rafId (v : option nat) (s : State) : State :=
  mkState (trail s) (trailData s) v (canvas_width s) (canvas_height s)
          (pending s) (next_handle s) (gl_calls s).

Definition set_canvas_size (w h : Z) (s : State) : State :=
  mkState (trail s) (trailData s) (rafId s) w h
          (pending s) (next_handle s) (gl_calls s).

Definition gl_call (c : GLCall) (s : State) : State :=
  mkState (trail s) (trailData s) (rafId s) (canvas_width s) (canvas_height s)
          (pending s) (next_handle s) (c :: gl_calls s).

(** [requestAnimationFrame(tick)]: the browser queues the callback and
    returns a fresh handle. *)
Definition requestAnimationFrame (s : State) : nat * State :=
  (next_handle s,
   mkState (trail s) (trailData s) (rafId s) (canvas_width s) (canvas_height s)
           (pending s ++ [next_handle s]) (S (next_handle s)) (gl_calls s)).

(** [cancelAnimationFrame(h)]. *)
Definition cancelAnimationFrame (h : nat) (s : State) : State :=
  mkState (trail s) (trailData s) (rafId s) (canvas_width s) (canvas_height s)
          (filter (fun h' => h' ≠ h) (pending s)) (next_handle s) (gl_calls s).

(** Strict comparison of two numbers, as a boolean. *)
Definition Qlt_bool (a b : Q) : bool := negb (Qle_bool b a).

(** ** Render *)

(** The body of the [for] loop of [render], from index [i] on; [rest] is
    what remains of [trail] from that index.  A write past the end of a
    typed array is ignored, which is what list insertion does. *)
Fixpoint render_loop (now : Q) (i : nat) (rest : list TrailPoint)
                     (buf : list Q) : list Q :=
  match rest with
  | [] => buf
  | p :: rest' =>
      let age := now - t p in
      let influence := Qmax 0 (1 - age / TRAIL_DURATION) in
      render_loop now (S i) rest'
        (<[(i * 3 + 2)%nat := influence]>
           (<[(i * 3 + 1)%nat := y p]>
              (<[(i * 3)%nat := x p]> buf)))
  end.

(** [trailData.fill(0)] followed by the loop. *)
Definition build_trailData (now : Q) (tr : list TrailPoint) (buf : list Q)
  : list Q :=
  render_loop now 0 tr (replicate (length buf) 0).

Definition render (now : Q) (s : State) : State :=
  let s1 := set_trailData (build_trailData now (trail s) (trailData s)) s in
  let s2 := gl_call (Viewport 0 0 (canvas_width s1) (canvas_height s1)) s1 in
  let s3 := gl_call Clear s2 in
  let s4 := gl_call (Uniform3fv (trailData s3)) s3 in
  gl_call (DrawArrays 0 6) s4.

(** ** Animation loop *)

(** The [while] loop of [tick]; each iteration pops one point, so
    [length tr] iterations are always enough (see [expire_fuel]). *)
Fixpoint expire_loop (fuel : nat) (cutoff : Q) (tr : list TrailPoint)
  : list TrailPoint :=
  match fuel with
  | O => tr
  | S fuel' =>
      match last tr with
      | Some p =>
          if Qlt_bool (t p) cutoff
          then expire_loop fuel' cutoff (removelast tr)
          else tr
      | None => tr
      end
  end.

Definition expire (cutoff : Q) (tr : list TrailPoint) : list TrailPoint :=
  expire_loop (length tr) cutoff tr.

Definition tick (now : Q) (s : State) : State :=
  let cutoff := now - TRAIL_DURATION in
  let s1 := set_trail (expire cutoff (trail s)) s in
  let s2 := render now s1 in
  match trail s2 with
  | _ :: _ =>
      let (h, s3) := requestAnimationFrame s2 in
      set_rafId (Some h) s3
  | [] => set_rafId None s2
  end.

Definition startLoop (s : State) : State :=
  match rafId s with
  | None =>
      let (h, s1) := requestAnimationFrame s in
      set_rafId (Some h) s1
  | Some _ => s
  end.

(** ** Event handlers *)

(** The surface coordinates [onMouseMove] computes from the event.  The
    division is that of the rationals: for a rectangle of zero width or
    height, where the source divides by zero, these definitions do not give
    what the source gives, and no property below relies on them there. *)
Definition pointer_x (e : MouseEvent) (rect : DOMRect) (s : State) : Q :=
  let scaleX := inject_Z (canvas_width s) / rect_width rect in
  (clientX e - rect_left rect) * scaleX.

Definition pointer_y (e : MouseEvent) (rect : DOMRect) (s : State) : Q :=
  let scaleY := inject_Z (canvas_height s) / rect_height rect in
  inject_Z (canvas_height s) - (clientY e - rect_top rect) * scaleY.

(** The part of [onMouseMove] after [x], [y] and [now] are known. *)
Definition record (px py now : Q) (s : State) : State :=
  let proceed :=
    let s1 := set_trail (mkTrailPoint px py now :: trail s) s in
    let s2 := if (TRAIL_MAX <? length (trail s1))%nat
              then set_trail (take TRAIL_MAX (trail s1)) s1
              else s1 in
    startLoop s2 in
  match head (trail s) with
  | Some last =>
      let dx := px - x last in
      let dy := py - y last in
      if Qlt_bool (dx * dx + dy * dy) (TRAIL_MIN_DIST * TRAIL_MIN_DIST)
      then s
      else proceed
  | None => proceed
  end.

(** [rect] is [container.getBoundingClientRect()] and [now] is
    [performance.now()] at the time of the event. *)
Definition onMouseMove (e : MouseEvent) (rect : DOMRect) (now : Q)
                       (s : State) : State :=
  record (pointer_x e rect s) (pointer_y e rect s) now s.

Definition onMouseLeave (s : State) : State := startLoop s.

(** [w], [h] are [container.clientWidth], [container.clientHeight] and
    [now] is [performance.now()]. *)
Definition syncSize (w h : Z) (now : Q) (s : State) : State :=
  render now (set_canvas_size w h s).

(** The browser empties its list of pending callbacks. *)
Definition take_callbacks (s : State) : State :=
  mkState (trail s) (trailData s) (rafId s) (canvas_width s) (canvas_height s)
          [] (next_handle s) (gl_calls s).

(** The browser runs the animation-frame callbacks: it takes the pending
    list, empties it, and calls each callback with the frame time. *)
Definition animationFrame (now : Q) (s : State) : State :=
  let callbacks := pending s in
  fold_left (fun s' _ => tick now s') callbacks (take_callbacks s).

(** ** The events an active effect receives *)

Inductive Event : Type :=
| MouseMove (e : MouseEvent) (rect : DOMRect) (now : Q)
| MouseLeave
| Resize (w h : Z) (now : Q)
| Frame (now : Q).

Definition step (ev : Event) (s : State) : State :=
  match ev with
  | MouseMove e rect now => onMouseMove e rect now s
  | MouseLeave => onMouseLeave s
  | Resize w h now => syncSize w h now s
  | Frame now => animationFrame now s
  end.

Definition run (evs : list Event) (s : State) : State :=
  fold_left (fun s' ev => step ev s') evs s.

(** The closure as the effect leaves it when initialization completes:
    an empty trail, a zeroed [Float32Array(TRAIL_MAX * 3)], no frame
    requested, and the first [syncSize()] done.  [h0] is the next handle
    the browser will hand out. *)
Definition fresh_state (h0 : nat) : State :=
  mkState [] (replicate (TRAIL_MAX * 3) 0) None 300 150 [] h0 [].

Definition init_state (h0 : nat) (w h : Z) (now : Q) : State :=
  syncSize w h now (fresh_state h0).

(** ** Reading the uniform buffer

    [gl.uniform3fv(uTrail, trailData)] hands the flat array to the shader
    as [TRAIL_MAX] vectors: slot [i] is made of entries [3i], [3i+1] and
    [3i+2]. *)
Definition slot (buf : list Q) (i : nat) : option (Q * Q * Q) :=
  match buf !! (i * 3)%nat, buf !! (i * 3 + 1)%nat, buf !! (i * 3 + 2)%nat with
  | Some a, Some b, Some c => Some (a, b, c)
  | _, _, _ => None
  end.

(** The influence [render] computes for a point, as one expression. *)
Definition influence (now : Q) (p : TrailPoint) : Q :=
  Qmax 0 (1 - (now - t p) / TRAIL_DURATION).

(** The squared distance [onMouseMove] compares with
    [TRAIL_MIN_DIST * TRAIL_MIN_DIST]. *)
Definition dist2 (px py : Q) (p : TrailPoint) : Q :=
  (px - x p) * (px - x p) + (py - y p) * (py - y p).

(** The Euclidean distance itself, a real number. *)
Definition distance (px py : Q) (p : TrailPoint) : R :=
  sqrt (Q2R (dist2 px py p)).

(** Consecutive entries of a trail are at least [TRAIL_MIN_DIST] apart. *)
Fixpoint spaced (tr : list TrailPoint) : Prop :=
  match tr with
  | [] => True
  | p :: rest =>
      match rest with
      | [] => True
      | q :: _ => TRAIL_MIN_DIST * TRAIL_MIN_DIST <= dist2 (x p) (y p) q
      end /\ spaced rest
  end.

(** Entries are in recency order: timestamps do not increase along the
    trail. *)
Fixpoint time_ordered (tr : list TrailPoint) : Prop :=
  match tr with
  | [] => True
  | p :: rest =>
      match rest with
      | [] => True
      | q :: _ => t q <= t p
      end /\ time_ordered rest
  end.

(** The handle variable and the browser's queue agree. *)
Definition handle_list (o : option nat) : list nat :=
  match o with
  | Some h => [h]
  | None => []
  end.

(** The condition under which a pointer move is recorded. *)
Definition accepts (px py : Q) (tr : list TrailPoint) : Prop :=
  match head tr with
  | Some last => TRAIL_MIN_DIST * TRAIL_MIN_DIST <= dist2 px py last
  | None => True
  end.

(** The states an active effect goes through, each pointer move given by
    the surface position [(px, py)] and the time it is handled with. *)
Inductive reachable : State -> Prop :=
| reach_init (h0 : nat) (w h : Z) (now : Q) :
    reachable (init_state h0 w h now)
| reach_move (px py now : Q) (s : State) :
    reachable s -> reachable (record px py now s)
| reach_leave (s : State) :
    reachable s -> reachable (onMouseLeave s)
| reach_resize (w h : Z) (now : Q) (s : State) :
    reachable s -> reachable (syncSize w h now s)
| reach_frame (now : Q) (s : State) :
    reachable s -> reachable (animationFrame now s).

(** ** Invariants of an active effect *)

Record Inv (s : State) : Prop := mkInv {
  inv_bound : (length (trail s) <= TRAIL_MAX)%nat;
  inv_buffer : length (trailData s) = (TRAIL_MAX * 3)%nat;
  inv_handle : pending s = handle_list (rafId s);
  inv_spaced : spaced (trail s);
  inv_running : trail s <> [] -> rafId s <> None
}.

(** ** The clock

    [performance.now()] and the frame time never go back: the times the
    events of a run carry do not decrease, starting from [last]. *)
Definition event_time (ev : Event) : option Q :=
  match ev with
  | MouseMove _ _ now => Some now
  | MouseLeave => None
  | Resize _ _ now => Some now
  | Frame now => Some now
  end.

Fixpoint clock_monotone (last : Q) (evs : list Event) : Prop :=
  match evs with
  | [] => True
  | ev :: evs' =>
      match event_time ev with
      | Some now => last <= now /\ clock_monotone now evs'
      | None => clock_monotone last evs'
      end
  end.

(** The trail is in recency order and nothing in it is later than [last]. *)
Definition timely (last : Q) (s : State) : Prop :=
  time_ordered (trail s) /\
  match head (trail s) with
  | Some p => t p <= last
  | None => True
  end.

(** The events that are not pointer events. *)
Definition passive (ev : Event) : bool :=
  match ev with
  | Resize _ _ _ | Frame _ => true
  | MouseMove _ _ _ | MouseLeave => false
  end.

(** ** Mounting and unmounting

    The body of the [useEffect] callback and the cleanup it returns.  What
    the environment decides (whether the refs are set, whether a WebGL
    context exists, whether shaders compile and link) is an input. *)

Inductive ShaderType : Type := VERTEX_SHADER | FRAGMENT_SHADER.

(** How a WebGL context answers the set-up calls. *)
Record GLContext : Type := mkGLContext {
  createShader : ShaderType -> bool;        (* false: [null] is returned *)
  COMPILE_STATUS : ShaderType -> bool;
  getShaderInfoLog : ShaderType -> string;
  createProgram : bool;                     (* false: [null] is returned *)
  LINK_STATUS : bool;
  getProgramInfoLog : string
}.

(** [canvasRef.current]: [getContext] is the answer to
    [canvas.getContext('webgl', { alpha: true, premultipliedAlpha: false,
    antialias: false })]. *)
Record Canvas : Type := mkCanvas { getContext : option GLContext }.

(** [containerRef.current]. *)
Record Container : Type := mkContainer { clientWidth : Z; clientHeight : Z }.

Inductive GLObject : Type :=
| ShaderObject (ty : ShaderType)
| ProgramObject
| BufferObject.

Inductive EventName : Type := mousemove | mouseleave.

#[global] Instance ShaderType_eq_dec : EqDecision ShaderType.
Proof. solve_decision. Defined.

#[global] Instance GLObject_eq_dec : EqDecision GLObject.
Proof. solve_decision. Defined.

#[global] Instance EventName_eq_dec : EqDecision EventName.
Proof. solve_decision. Defined.

(** One instance of the hook and what it holds in the page. *)
Record Instance : Type := mkInstance {
  active : option State;          (* the closure, once set-up has completed *)
  has_cleanup : bool;             (* the effect returned a cleanup function *)
  listeners : list EventName;     (* listeners registered on the container *)
  observing : bool;               (* the [ResizeObserver] is connected *)
  gl_objects : list GLObject;     (* GPU objects created and not deleted *)
  console : list string           (* [console.warn] messages *)
}.

(** How the effect callback ends. *)
Inductive Outcome : Type :=
| Returned
| Threw (message : string).

Definition newline : string := String (ascii_of_nat 10) EmptyString.

(** [compileShader(gl, type, source)]: the error message, or the live
    objects with the new shader added. *)
Definition compileShader (gl : GLContext) (ty : ShaderType)
                         (objs : list GLObject) : string + list GLObject :=
  if createShader gl ty then
    if COMPILE_STATUS gl ty then inr (ShaderObject ty :: objs)
    else inl ("Shader compile error:" ++ newline ++ getShaderInfoLog gl ty)%string
  else inl "Failed to create WebGL shader"%string.

(** [linkProgram(gl, vert, frag)]. *)
Definition linkProgram (gl : GLContext) (objs : list GLObject)
  : string + list GLObject :=
  if createProgram gl then
    if LINK_STATUS gl then inr (ProgramObject :: objs)
    else inl ("Program link error:" ++ newline ++ getProgramInfoLog gl)%string
  else inl "Failed to create WebGL program"%string.

Definition not_supported : string :=
  "useWebGLGrid: WebGL is not supported in this browser."%string.

(** An instance that has set nothing up. *)
Definition inert (warnings : list string) : Instance :=
  mkInstance None false [] false [] warnings.

(** An instance whose set-up stopped on an exception after creating [objs]. *)
Definition aborted (objs : list GLObject) : Instance :=
  mkInstance None false [] false objs [].

(** The effect callback.  [h0] is the next animation-frame handle of the
    browser and [now] is [performance.now()] at the first [syncSize()]. *)
Definition mount (canvasRef : option Canvas) (containerRef : option Container)
                 (h0 : nat) (now : Q) : Outcome * Instance :=
  match canvasRef, containerRef with
  | Some canvas, Some container =>
      match getContext canvas with
      | None => (Returned, inert [not_supported])
      | Some gl =>
          match compileShader gl VERTEX_SHADER [] with
          | inl msg => (Threw msg, aborted [])
          | inr objs1 =>
              match compileShader gl FRAGMENT_SHADER objs1 with
              | inl msg => (Threw msg, aborted objs1)
              | inr objs2 =>
                  match linkProgram gl objs2 with
                  | inl msg => (Threw msg, aborted objs2)
                  | inr objs3 =>
                      let s := init_state h0 (clientWidth container)
                                          (clientHeight container) now in
                      (Returned,
                       mkInstance (Some s) true [mousemove; mouseleave] true
                                  (BufferObject :: objs3) [])
                  end
              end
          end
      end
  | _, _ => (Returned, inert [])
  end.

(** The browser delivers an event: a pointer event reaches its handler
    only through a registered listener, a resize only through a connected
    observer, and a frame runs the callbacks that are pending. *)
Definition deliver (ev : Event) (i : Instance) : Instance :=
  match active i with
  | None => i
  | Some s =>
      let reaches :=
        match ev with
        | MouseMove _ _ _ => bool_decide (mousemove ∈ listeners i)
        | MouseLeave => bool_decide (mouseleave ∈ listeners i)
        | Resize _ _ _ => observing i
        | Frame _ => true
        end in
      if reaches
      then mkInstance (Some (step ev s)) (has_cleanup i) (listeners i)
                      (observing i) (gl_objects i) (console i)
      else i
  end.

Definition deliver_all (evs : list Event) (i : Instance) : Instance :=
  fold_left (fun i' ev => deliver ev i') evs i.

Definition remove_object (o : GLObject) (objs : list GLObject) : list GLObject :=
  filter (fun o' => o' ≠ o) objs.

(** Unmounting runs the cleanup function, when the effect returned one. *)
Definition unmount (i : Instance) : Instance :=
  match has_cleanup i, active i with
  | true, Some s =>
      let s1 := match rafId s with
                | Some h => cancelAnimationFrame h s
                | None => s
                end in
      mkInstance (Some s1) false
        (filter (fun n => n ≠ mouseleave)
                (filter (fun n => n ≠ mousemove) (listeners i)))
        false
        (remove_object BufferObject
           (remove_object (ShaderObject FRAGMENT_SHADER)
              (remove_object (ShaderObject VERTEX_SHADER)
                 (remove_object ProgramObject (gl_objects i)))))
        (console i)
  | _, _ => i
  end.

(** ** The fragment shader [FRAG_SRC]

    GLSL floats are modelled by real numbers; [vec2], [vec3] and [vec4] are
    records, and the built-in functions the shader calls are written out
    from their GLSL definitions. *)

Module Shader.

Local Open Scope R_scope.

Record vec2 : Type := mkvec2 { v2x : R; v2y : R }.
Record vec3 : Type := mkvec3 { v3x : R; v3y : R; v3z : R }.
Record vec4 : Type := mkvec4 { v4x : R; v4y : R; v4z : R; v4w : R }.

(** *** GLSL built-ins *)

Definition floor (a : R) : R := IZR (Int_part a).
Definition length (v : vec2) : R := sqrt (v2x v * v2x v + v2y v * v2y v).
Definition clamp (a lo hi : R) : R := Rmin (Rmax a lo) hi.
Definition smoothstep (edge0 edge1 a : R) : R :=
  let u := clamp ((a - edge0) / (edge1 - edge0)) 0 1 in
  u * u * (3 - 2 * u).
Definition mix (a b : vec4) (w : R) : vec4 :=
  mkvec4 (v4x a * (1 - w) + v4x b * w) (v4y a * (1 - w) + v4y b * w)
         (v4z a * (1 - w) + v4z b * w) (v4w a * (1 - w) + v4w b * w).
Definition vec4_of (a : R) : vec4 := mkvec4 a a a a.
Definition xy (v : vec3) : vec2 := mkvec2 (v3x v) (v3y v).
Definition sub2 (a b : vec2) : vec2 := mkvec2 (v2x a - v2x b) (v2y a - v2y b).

(** *** Constants of the shader *)

Definition TRAIL_MAX : nat := 50.
Definition GRID_SIZE : R := 48.0.
Definition GRID_GAP : R := 4.0.
Definition CORNER_RADIUS : R := 6.0.
Definition BORDER_WIDTH : R := 4.0.
Definition HOVER_RADIUS : R := 100.0.
Definition COLOR_BORDER_HOVER : vec4 := mkvec4 0.557 0.196 0.004 1.0.

(** *** [main] *)

(** The [for] loop over the uniform slots, [n] iterations from index [i],
    with the running value of [maxInfluence]. *)
Fixpoint accumulate (n i : nat) (cellCenter : vec2) (u_trail : nat -> vec3)
                    (maxInfluence : R) : R :=
  match n with
  | O => maxInfluence
  | S n' =>
      let trailInfluence := v3z (u_trail i) in
      if Rle_dec trailInfluence 0
      then accumulate n' (S i) cellCenter u_trail maxInfluence
      else
        let dist := length (sub2 cellCenter (xy (u_trail i))) in
        let spatial := 1 - smoothstep 0 HOVER_RADIUS dist in
        accumulate n' (S i) cellCenter u_trail
                   (Rmax maxInfluence (trailInfluence * spatial))
  end.

(** [fc] is [gl_FragCoord.xy], [u_trail] the uniform array; the result is
    [gl_FragColor]. *)
Definition main (fc : vec2) (u_trail : nat -> vec3) : vec4 :=
  let cellId := mkvec2 (floor (v2x fc / GRID_SIZE)) (floor (v2y fc / GRID_SIZE)) in
  let cellCenter := mkvec2 ((v2x cellId + 0.5) * GRID_SIZE)
                           ((v2y cellId + 0.5) * GRID_SIZE) in
  let cellLocal := sub2 fc cellCenter in
  let halfSize := GRID_SIZE * 0.5 - GRID_GAP in
  let q := mkvec2 (Rabs (v2x cellLocal) - (halfSize - CORNER_RADIUS))
                  (Rabs (v2y cellLocal) - (halfSize - CORNER_RADIUS)) in
  let sdf := length (mkvec2 (Rmax (v2x q) 0) (Rmax (v2y q) 0))
             + Rmin (Rmax (v2x q) (v2y q)) 0 - CORNER_RADIUS in
  if Rgt_dec sdf 0 then vec4_of 0
  else
    let maxInfluence := accumulate TRAIL_MAX 0 cellCenter u_trail 0 in
    if Rgt_dec sdf (- BORDER_WIDTH)
    then mix (vec4_of 0) COLOR_BORDER_HOVER maxInfluence
    else vec4_of 0.

(** *** The quantities [main] computes, by name *)

Definition cell_center (fc : vec2) : vec2 :=
  mkvec2 ((floor (v2x fc / GRID_SIZE) + 0.5) * GRID_SIZE)
         ((floor (v2y fc / GRID_SIZE) + 0.5) * GRID_SIZE).

Definition sdf (fc : vec2) : R :=
  let cellLocal := sub2 fc (cell_center fc) in
  let halfSize := GRID_SIZE * 0.5 - GRID_GAP in
  let q := mkvec2 (Rabs (v2x cellLocal) - (halfSize - CORNER_RADIUS))
                  (Rabs (v2y cellLocal) - (halfSize - CORNER_RADIUS)) in
  length (mkvec2 (Rmax (v2x q) 0) (Rmax (v2y q) 0))
  + Rmin (Rmax (v2x q) (v2y q)) 0 - CORNER_RADIUS.

(** The spatial falloff of a sample at distance [d] from the cell centre. *)
Definition falloff (d : R) : R := 1 - smoothstep 0 HOVER_RADIUS d.

(** What slot [i] contributes at a cell: its influence times its falloff. *)
Definition contribution (cellCenter : vec2) (u_trail : nat -> vec3) (i : nat) : R :=
  v3z (u_trail i) * falloff (length (sub2 cellCenter (xy (u_trail i)))).

(** The greatest of a list of numbers and [0]. *)
Definition greatest (l : list R) : R := fold_right Rmax 0 l.

(** The sum of a list of numbers. *)
Definition total (l : list R) : R := fold_right Rplus 0 l.

Definition contributions (cellCenter : vec2) (u_trail : nat -> vec3) : list R :=
  map (contribution cellCenter u_trail) (seq 0 TRAIL_MAX).

End Shader.

(** ** Further definitions

    What the remaining parts of the hook need: the answers of a context
    with which set-up goes through, a count of the draw calls, the uniform
    array as the shader receives it, and the vertex buffer of the quad. *)

(** Every set-up call on the context succeeds. *)
Definition gl_ready (gl : GLContext) : bool :=
  createShader gl VERTEX_SHADER && COMPILE_STATUS gl VERTEX_SHADER &&
  createShader gl FRAGMENT_SHADER && COMPILE_STATUS gl FRAGMENT_SHADER &&
  createProgram gl && LINK_STATUS gl.

(** The number of [gl.drawArrays] calls in a log. *)
Fixpoint count_draws (calls : list GLCall) : nat :=
  match calls with
  | [] => O
  | DrawArrays _ _ :: rest => S (count_draws rest)
  | _ :: rest => count_draws rest
  end.

Definition draw_calls (s : State) : nat := count_draws (gl_calls s).

(** [gl.uniform3fv(uTrail, data)]: element [i] of [u_trail] is made of
    entries [3i], [3i+1], [3i+2] of the array. *)
Definition uniform_of (data : list Q) (i : nat) : Shader.vec3 :=
  match slot data i with
  | Some (a, b, c) => Shader.mkvec3 (Q2R a) (Q2R b) (Q2R c)
  | None => Shader.mkvec3 0 0 0
  end.

(** The [Float32Array] of the fullscreen quad. *)
Definition vertices : list Q :=
  [-1; -1;   1; -1;  -1;  1;
   -1;  1;   1; -1;   1;  1].

(** [gl.vertexAttribPointer(aPosition, 2, gl.FLOAT, false, 0, 0)]: vertex
    [k] reads entries [2k] and [2k+1] of the bound buffer. *)
Definition a_position (buf : list Q) (k : nat) : option (Q * Q) :=
  match buf !! (2 * k)%nat, buf !! (2 * k + 1)%nat with
  | Some a, Some b => Some (a, b)
  | _, _ => None
  end.

(** [VERT_SRC]: [gl_Position = vec4(a_position, 0.0, 1.0)]. *)
Definition VERT_main (a : Q * Q) : Q * Q * Q * Q := (fst a, snd a, 0, 1).

(** [gl.drawArrays(gl.TRIANGLES, first, count)] draws [count / 3]
    triangles; triangle [j] is made of vertices [first + 3j], [first + 3j + 1]
    and [first + 3j + 2]. *)
Definition triangle (buf : list Q) (first j : nat)
  : option ((Q * Q) * (Q * Q) * (Q * Q)) :=
  match a_position buf (first + 3 * j)%nat,
        a_position buf (first + 3 * j + 1)%nat,
        a_position buf (first + 3 * j + 2)%nat with
  | Some a, Some b, Some c => Some (a, b, c)
  | _, _, _ => None
  end.

(** A point of clip space lies in a triangle when it is a convex
    combination of its corners. *)
Definition inside (tri : (Q * Q) * (Q * Q) * (Q * Q)) (a b : Q) : Prop :=
  let '(p1, p2, p3) := tri in
  exists w1 w2 w3 : Q,
    0 <= w1 /\ 0 <= w2 /\ 0 <= w3 /\ w1 + w2 + w3 == 1 /\
    a == w1 * fst p1 + w2 * fst p2 + w3 * fst p3 /\
    b == w1 * snd p1 + w2 * snd p2 + w3 * snd p3.

(** The offset of a pixel from the centre of its cell ([cellLocal]). *)
Definition cell_local (fc : Shader.vec2) : Shader.vec2 :=
  Shader.sub2 fc (Shader.cell_center fc).

(** The weight of the highlight at a pixel ([maxInfluence]). *)
Definition glow (fc : Shader.vec2) (u_trail : nat -> Shader.vec3) : R :=
  Shader.greatest (Shader.contributions (Shader.cell_center fc) u_trail).

(** A pixel, and a trail sample, moved by whole cells. *)
Definition shift_cells (kx ky : Z) (v : Shader.vec2) : Shader.vec2 :=
  Shader.mkvec2 (Shader.v2x v + IZR kx * Shader.GRID_SIZE)%R
                (Shader.v2y v + IZR ky * Shader.GRID_SIZE)%R.

Definition shift_sample (kx ky : Z) (v : Shader.vec3) : Shader.vec3 :=
  Shader.mkvec3 (Shader.v3x v + IZR kx * Shader.GRID_SIZE)%R
                (Shader.v3y v + IZR ky * Shader.GRID_SIZE)%R
                (Shader.v3z v).

(** The size given by the last resize of a run, [size0] when there is
    none. *)
Fixpoint last_size (size0 : Z * Z) (evs : list Event) : Z * Z :=
  match evs with
  | [] => size0
  | Resize w h _ :: evs' => last_size (w, h) evs'
  | _ :: evs' => last_size size0 evs'
  end.

(** The size of the canvas. *)
Definition canvas_size (s : State) : Z * Z := (canvas_width s, canvas_height s).

(** The last four WebGL calls are a complete render of the current buffer
    on the current canvas size. *)
Definition drawn (s : State) : Prop :=
  exists rest : list GLCall,
    gl_calls s =
      DrawArrays 0 6 :: Uniform3fv (trailData s) :: Clear ::
      Viewport 0 0 (canvas_width s) (canvas_height s) :: rest.

(** From [s] to [s'] the canvas keeps its size, and if the last WebGL calls
    of [s] were a complete render of its state, so are those of [s']. *)
Definition same_surface (s s' : State) : Prop :=
  canvas_size s' = canvas_size s /\ (drawn s -> drawn s').

(** * Basic facts *)

Lemma Qlt_bool_iff (a b : Q) : Qlt_bool a b = true <-> a < b.
Proof.
  unfold Qlt_bool. rewrite negb_true_iff.
  split; intros H.
  - apply Qnot_le_lt. intros Hle. apply Qle_bool_iff in Hle. congruence.
  - destruct (Qle_bool b a) eqn:E; [|reflexivity].
    apply Qle_bool_iff in E. exfalso. exact (Qlt_not_le _ _ H E).
Qed.

Lemma Qlt_bool_false_iff (a b : Q) : Qlt_bool a b = false <-> b <= a.
Proof.
  unfold Qlt_bool. rewrite negb_false_iff. apply Qle_bool_iff.
Qed.

Section RenderLoop.

Variable now : Q.

Lemma render_loop_length (rest : list TrailPoint) :
  forall (i : nat) (buf : list Q),
    length (render_loop now i rest buf) = length buf.
Proof.
  induction rest as [|p rest IH]; intros i buf; simpl; [reflexivity|].
  rewrite IH. by rewrite !length_insert.
Qed.

(** Entries outside the slots the loop covers keep their value. *)
Lemma render_loop_outside (rest : list TrailPoint) :
  forall (i : nat) (buf : list Q) (j : nat),
    (j < i * 3 \/ (i + length rest) * 3 <= j)%nat ->
    render_loop now i rest buf !! j = buf !! j.
Proof.
  induction rest as [|p rest IH]; intros i buf j Hj; simpl; [reflexivity|].
  simpl in Hj. rewrite IH by lia.
  rewrite !list_lookup_insert_ne by lia. reflexivity.
Qed.

(** Entry [c] of the slot of the [k]-th remaining point. *)
Lemma render_loop_inside (rest : list TrailPoint) :
  forall (i : nat) (buf : list Q) (k : nat) (p : TrailPoint),
    rest !! k = Some p ->
    ((i + k) * 3 + 2 < length buf)%nat ->
    render_loop now i rest buf !! ((i + k) * 3)%nat = Some (x p) /\
    render_loop now i rest buf !! ((i + k) * 3 + 1)%nat = Some (y p) /\
    render_loop now i rest buf !! ((i + k) * 3 + 2)%nat = Some (influence now p).
Proof.
  induction rest as [|q rest IH]; intros i buf k p Hk Hlen; [done|].
  destruct k as [|k]; simpl in Hk.
  - inversion Hk; subst q. simpl.
    rewrite !render_loop_outside by lia.
    replace (i + 0)%nat with i in * by lia.
    rewrite list_lookup_insert_ne by lia.
    rewrite list_lookup_insert_ne by lia.
    rewrite list_lookup_insert_eq by lia.
    rewrite list_lookup_insert_ne by lia.
    rewrite list_lookup_insert_eq by (rewrite length_insert; lia).
    rewrite list_lookup_insert_eq by (rewrite !length_insert; lia).
    done.
  - simpl. replace (i + S k)%nat with (S i + k)%nat in * by lia.
    apply IH; [done|]. by rewrite !length_insert.
Qed.

End RenderLoop.

Lemma build_trailData_length (now : Q) (tr : list TrailPoint) (buf : list Q) :
  length (build_trailData now tr buf) = length buf.
Proof.
  unfold build_trailData. by rewrite render_loop_length, length_replicate.
Qed.

(** What a rebuild leaves in slot [i]: the [i]-th point if there is one,
    zeros otherwise, whatever the buffer held before. *)
Lemma build_trailData_slot (now : Q) (tr : list TrailPoint) (buf : list Q) (i : nat) :
  (i * 3 + 2 < length buf)%nat ->
  slot (build_trailData now tr buf) i =
    Some (match tr !! i with
          | Some p => (x p, y p, influence now p)
          | None => (0, 0, 0)
          end).
Proof.
  intros Hi. unfold slot, build_trailData.
  destruct (tr !! i) as [p|] eqn:E.
  - destruct (render_loop_inside now tr 0 (replicate (length buf) 0) i p E)
      as (H0 & H1 & H2).
    { rewrite length_replicate. simpl. lia. }
    simpl in H0, H1, H2. by rewrite H0, H1, H2.
  - apply lookup_ge_None in E.
    rewrite !render_loop_outside by (right; simpl; lia).
    rewrite !lookup_replicate_2 by lia. reflexivity.
Qed.

(** ** The expiry loop *)

Lemma expire_loop_nil (fuel : nat) (cutoff : Q) : expire_loop fuel cutoff [] = [].
Proof. by destruct fuel. Qed.

Lemma expire_loop_snoc (fuel : nat) (cutoff : Q) (l : list TrailPoint) (p : TrailPoint) :
  expire_loop (S fuel) cutoff (l ++ [p]) =
    if Qlt_bool (t p) cutoff then expire_loop fuel cutoff l else l ++ [p].
Proof.
  simpl. rewrite last_snoc. by rewrite removelast_last.
Qed.

(** Fuel: [length tr] iterations are enough, more change nothing. *)
Lemma expire_fuel (cutoff : Q) (tr : list TrailPoint) :
  forall fuel : nat,
    (length tr <= fuel)%nat -> expire_loop fuel cutoff tr = expire cutoff tr.
Proof.
  unfold expire.
  induction tr as [|p l IH] using rev_ind; intros fuel Hf.
  - by rewrite !expire_loop_nil.
  - rewrite length_app in *. simpl in *.
    destruct fuel as [|fuel]; [lia|].
    replace (length l + 1)%nat with (S (length l)) by lia.
    rewrite !expire_loop_snoc.
    destruct (Qlt_bool (t p) cutoff); [|reflexivity].
    apply IH. lia.
Qed.

Lemma expire_snoc (cutoff : Q) (l : list TrailPoint) (p : TrailPoint) :
  expire cutoff (l ++ [p]) =
    if Qlt_bool (t p) cutoff then expire cutoff l else l ++ [p].
Proof.
  unfold expire at 1. rewrite length_app. simpl.
  replace (length l + 1)%nat with (S (length l)) by lia.
  by rewrite expire_loop_snoc.
Qed.

Lemma expire_nil (cutoff : Q) : expire cutoff [] = [].
Proof. reflexivity. Qed.

(** The loop only pops: what is left is an initial segment of the trail. *)
Lemma expire_prefix (cutoff : Q) (tr : list TrailPoint) :
  exists k : nat, (k <= length tr)%nat /\ expire cutoff tr = take k tr.
Proof.
  induction tr as [|p l IH] using rev_ind.
  - exists 0%nat. by rewrite expire_nil.
  - rewrite expire_snoc. destruct (Qlt_bool (t p) cutoff).
    + destruct IH as (k & Hk & ->). exists k. rewrite length_app. split; [lia|].
      by rewrite take_app_le.
    + exists (length (l ++ [p])). split; [lia|]. by rewrite take_ge.
Qed.

(** The loop stops at a point that has not passed the cutoff. *)
Lemma expire_last (cutoff : Q) (tr : list TrailPoint) (p : TrailPoint) :
  last (expire cutoff tr) = Some p -> cutoff <= t p.
Proof.
  induction tr as [|q l IH] using rev_ind.
  - by rewrite expire_nil.
  - rewrite expire_snoc. destruct (Qlt_bool (t q) cutoff) eqn:E; [exact IH|].
    rewrite last_snoc. intros [= ->]. by apply Qlt_bool_false_iff.
Qed.

(** Every popped point is strictly older than the cutoff. *)
Lemma expire_dropped (cutoff : Q) (tr : list TrailPoint) (i : nat) (p : TrailPoint) :
  tr !! i = Some p -> (length (expire cutoff tr) <= i)%nat -> t p < cutoff.
Proof.
  revert i. induction tr as [|q l IH] using rev_ind; intros i Hi Hlen; [done|].
  rewrite expire_snoc in Hlen. destruct (Qlt_bool (t q) cutoff) eqn:E.
  - destruct (decide (i < length l)%nat) as [Hlt|Hge].
    + rewrite lookup_app_l in Hi by done. by apply (IH i).
    + apply lookup_lt_Some in Hi as Hi'. rewrite length_app in Hi'. simpl in Hi'.
      assert (i = length l) as -> by lia.
      rewrite list_lookup_middle in Hi by done. inversion Hi; subst.
      by apply Qlt_bool_iff.
  - apply lookup_lt_Some in Hi. lia.
Qed.

Lemma time_ordered_snoc (l : list TrailPoint) (p : TrailPoint) :
  time_ordered (l ++ [p]) ->
  time_ordered l /\ forall q, q ∈ l -> t p <= t q.
Proof.
  induction l as [|a l IH]; simpl.
  - intros _. split; [done|]. intros q Hq. by apply elem_of_nil in Hq.
  - intros [Hhd Htl]. destruct (IH Htl) as [Hl Hall]. split.
    + split; [|done]. destruct l; [done|]. exact Hhd.
    + intros q Hq. apply elem_of_cons in Hq as [->|Hq]; [|by apply Hall].
      destruct l as [|b l]; simpl in Hhd; [done|].
      eapply Qle_trans; [|exact Hhd]. apply Hall. left.
Qed.

(** On a trail in recency order nothing older than the cutoff survives. *)
Lemma expire_time_ordered (cutoff : Q) (tr : list TrailPoint) :
  time_ordered tr ->
  forall p, p ∈ expire cutoff tr -> cutoff <= t p.
Proof.
  induction tr as [|q l IH] using rev_ind; intros Hord p Hp.
  - rewrite expire_nil in Hp. by apply elem_of_nil in Hp.
  - apply time_ordered_snoc in Hord as [Hl Hall].
    rewrite expire_snoc in Hp. destruct (Qlt_bool (t q) cutoff) eqn:E.
    + by apply IH.
    + apply Qlt_bool_false_iff in E.
      apply elem_of_app in Hp as [Hp|Hp].
      * eapply Qle_trans; [exact E|]. by apply Hall.
      * apply list_elem_of_singleton in Hp. by subst.
Qed.

(** ** What each operation does to each part of the state *)

Lemma render_trail (now : Q) (s : State) : trail (render now s) = trail s.
Proof. reflexivity. Qed.

Lemma render_rafId (now : Q) (s : State) : rafId (render now s) = rafId s.
Proof. reflexivity. Qed.

Lemma render_pending (now : Q) (s : State) : pending (render now s) = pending s.
Proof. reflexivity. Qed.

Lemma render_trailData (now : Q) (s : State) :
  trailData (render now s) = build_trailData now (trail s) (trailData s).
Proof. reflexivity. Qed.

Lemma tick_trail (now : Q) (s : State) :
  trail (tick now s) = expire (now - TRAIL_DURATION) (trail s).
Proof.
  unfold tick. simpl. by destruct (expire (now - TRAIL_DURATION) (trail s)).
Qed.

Lemma tick_trailData (now : Q) (s : State) :
  trailData (tick now s) =
    build_trailData now (expire (now - TRAIL_DURATION) (trail s)) (trailData s).
Proof.
  unfold tick. simpl. by destruct (expire (now - TRAIL_DURATION) (trail s)).
Qed.

Lemma tick_schedule (now : Q) (s : State) :
  match trail (tick now s) with
  | [] => rafId (tick now s) = None /\ pending (tick now s) = pending s
  | _ :: _ => rafId (tick now s) = Some (next_handle s) /\
              pending (tick now s) = pending s ++ [next_handle s]
  end.
Proof.
  unfold tick. simpl. by destruct (expire (now - TRAIL_DURATION) (trail s)).
Qed.

Lemma startLoop_trail (s : State) : trail (startLoop s) = trail s.
Proof. unfold startLoop. by destruct (rafId s). Qed.

Lemma startLoop_trailData (s : State) : trailData (startLoop s) = trailData s.
Proof. unfold startLoop. by destruct (rafId s). Qed.

Lemma startLoop_scheduled (s : State) (h : nat) :
  rafId s = Some h -> startLoop s = s.
Proof. unfold startLoop. by intros ->. Qed.

Lemma startLoop_idle (s : State) :
  rafId s = None ->
  startLoop s =
    mkState (trail s) (trailData s) (Some (next_handle s)) (canvas_width s)
            (canvas_height s) (pending s ++ [next_handle s])
            (S (next_handle s)) (gl_calls s).
Proof. unfold startLoop. by intros ->. Qed.

Lemma record_rejected (px py now : Q) (s : State) :
  ~ accepts px py (trail s) -> record px py now s = s.
Proof.
  unfold accepts, record. destruct (head (trail s)) as [last|]; [|tauto].
  intros H. fold (dist2 px py last).
  destruct (Qlt_bool (dist2 px py last) (TRAIL_MIN_DIST * TRAIL_MIN_DIST)) eqn:E;
    [reflexivity|].
  apply Qlt_bool_false_iff in E. tauto.
Qed.

Lemma record_accepted (px py now : Q) (s : State) :
  accepts px py (trail s) ->
  record px py now s =
    startLoop (set_trail (take TRAIL_MAX (mkTrailPoint px py now :: trail s)) s).
Proof.
  assert (Hgo :
    startLoop
      (let s1 := set_trail (mkTrailPoint px py now :: trail s) s in
       if (TRAIL_MAX <? length (trail s1))%nat
       then set_trail (take TRAIL_MAX (trail s1)) s1 else s1) =
    startLoop (set_trail (take TRAIL_MAX (mkTrailPoint px py now :: trail s)) s)).
  { cbv zeta.
    destruct (TRAIL_MAX <? length (trail (set_trail (mkTrailPoint px py now :: trail s) s)))%nat
      eqn:E; [reflexivity|].
    apply Nat.ltb_ge in E. cbn [trail set_trail] in E.
    rewrite take_ge by exact E. reflexivity. }
  unfold accepts, record. destruct (head (trail s)) as [last|]; [|intros _; exact Hgo].
  intros H. fold (dist2 px py last).
  destruct (Qlt_bool (dist2 px py last) (TRAIL_MIN_DIST * TRAIL_MIN_DIST)) eqn:E;
    [|exact Hgo].
  apply Qlt_bool_iff in E. exfalso. exact (Qlt_not_le _ _ E H).
Qed.

Lemma accepts_dec (px py : Q) (tr : list TrailPoint) :
  {accepts px py tr} + {~ accepts px py tr}.
Proof.
  unfold accepts. destruct (head tr) as [last|]; [|by left].
  destruct (Qlt_le_dec (dist2 px py last) (TRAIL_MIN_DIST * TRAIL_MIN_DIST)) as [H|H].
  - right. intros H'. exact (Qlt_not_le _ _ H H').
  - by left.
Qed.

Lemma record_trail (px py now : Q) (s : State) :
  trail (record px py now s) =
    if accepts_dec px py (trail s)
    then take TRAIL_MAX (mkTrailPoint px py now :: trail s)
    else trail s.
Proof.
  destruct (accepts_dec px py (trail s)) as [H|H].
  - rewrite record_accepted by done. by rewrite startLoop_trail.
  - by rewrite record_rejected.
Qed.

(** ** Invariants are preserved *)

Lemma spaced_take (k : nat) (tr : list TrailPoint) :
  spaced tr -> spaced (take k tr).
Proof.
  revert k. induction tr as [|p tr IH]; intros k H; [by destruct k|].
  destruct k as [|k]; [done|]. simpl in *. destruct H as [Hhd Htl].
  split; [|by apply IH].
  destruct tr as [|q tr]; [by destruct k|]. by destruct k.
Qed.

Lemma spaced_cons (px py now : Q) (tr : list TrailPoint) :
  accepts px py tr -> spaced tr -> spaced (mkTrailPoint px py now :: tr).
Proof.
  unfold accepts. intros Ha Hs. simpl. split; [|done].
  destruct tr as [|q tr]; [done|]. exact Ha.
Qed.

Lemma time_ordered_take (k : nat) (tr : list TrailPoint) :
  time_ordered tr -> time_ordered (take k tr).
Proof.
  revert k. induction tr as [|p tr IH]; intros k H; [by destruct k|].
  destruct k as [|k]; [done|]. simpl in *. destruct H as [Hhd Htl].
  split; [|by apply IH].
  destruct tr as [|q tr]; [by destruct k|]. by destruct k.
Qed.

Lemma Inv_fresh (h0 : nat) : Inv (fresh_state h0).
Proof. split; simpl; try done. lia. Qed.

Lemma startLoop_rafId (s : State) : rafId (startLoop s) <> None.
Proof. unfold startLoop. by destruct (rafId s) eqn:E; simpl; rewrite ?E. Qed.

Lemma Inv_render (now : Q) (s : State) : Inv s -> Inv (render now s).
Proof.
  intros [Hb Hd Hh Hs Hr]. split.
  - by rewrite render_trail.
  - by rewrite render_trailData, build_trailData_length.
  - by rewrite render_pending, render_rafId.
  - by rewrite render_trail.
  - by rewrite render_trail, render_rafId.
Qed.

Lemma Inv_syncSize (w h : Z) (now : Q) (s : State) : Inv s -> Inv (syncSize w h now s).
Proof.
  intros [Hb Hd Hh Hs Hr]. unfold syncSize. apply Inv_render. by split.
Qed.

Lemma Inv_init (h0 : nat) (w h : Z) (now : Q) : Inv (init_state h0 w h now).
Proof. apply Inv_syncSize, Inv_fresh. Qed.

Lemma Inv_startLoop (s : State) : Inv s -> Inv (startLoop s).
Proof.
  intros [Hb Hd Hh Hs Hr]. destruct (rafId s) as [h|] eqn:E.
  - rewrite (startLoop_scheduled s h E). split; try done; by rewrite E.
  - rewrite (startLoop_idle s E). split; simpl; try done.
    by rewrite Hh.
Qed.

Lemma Inv_record (px py now : Q) (s : State) : Inv s -> Inv (record px py now s).
Proof.
  intros HI. destruct (accepts_dec px py (trail s)) as [Ha|Hr].
  - rewrite record_accepted by done.
    destruct HI as [Hb Hd Hh Hs Hr].
    set (s1 := set_trail (take TRAIL_MAX (mkTrailPoint px py now :: trail s)) s).
    assert (length (trail s1) <= TRAIL_MAX)%nat as Hb1.
    { unfold s1. simpl. rewrite length_take. unfold TRAIL_MAX. lia. }
    assert (spaced (trail s1)) as Hs1.
    { apply (spaced_take TRAIL_MAX (mkTrailPoint px py now :: trail s)).
      by apply spaced_cons. }
    split.
    + by rewrite startLoop_trail.
    + by rewrite startLoop_trailData.
    + destruct (rafId s) as [h|] eqn:E.
      * rewrite (startLoop_scheduled s1 h E). simpl. by rewrite E.
      * rewrite (startLoop_idle s1 E). simpl. by rewrite Hh.
    + by rewrite startLoop_trail.
    + intros _. apply startLoop_rafId.
  - by rewrite record_rejected.
Qed.

(** One callback run by the browser, the queue already emptied. *)
Lemma Inv_tick (now : Q) (s : State) :
  (length (trail s) <= TRAIL_MAX)%nat ->
  length (trailData s) = (TRAIL_MAX * 3)%nat ->
  pending s = [] ->
  spaced (trail s) ->
  Inv (tick now s).
Proof.
  intros Hb Hd Hp Hs.
  destruct (expire_prefix (now - TRAIL_DURATION) (trail s)) as (k & Hk & He).
  pose proof (tick_schedule now s) as Hsch.
  split.
  - rewrite tick_trail, He, length_take. lia.
  - by rewrite tick_trailData, build_trailData_length.
  - destruct (trail (tick now s)); destruct Hsch as [-> ->]; by rewrite Hp.
  - rewrite tick_trail, He. by apply spaced_take.
  - destruct (trail (tick now s)); [done|]. destruct Hsch as [-> _]. done.
Qed.

Lemma Inv_animationFrame (now : Q) (s : State) : Inv s -> Inv (animationFrame now s).
Proof.
  intros [Hb Hd Hh Hs Hr]. unfold animationFrame. rewrite Hh.
  destruct (rafId s) as [h|] eqn:E; simpl.
  - by apply Inv_tick.
  - split; simpl; rewrite ?E; done.
Qed.

Lemma Inv_step (ev : Event) (s : State) : Inv s -> Inv (step ev s).
Proof.
  destruct ev; simpl.
  - apply Inv_record.
  - apply Inv_startLoop.
  - apply Inv_syncSize.
  - apply Inv_animationFrame.
Qed.

Lemma Inv_run (evs : list Event) : forall s : State, Inv s -> Inv (run evs s).
Proof.
  unfold run. induction evs as [|ev evs IH]; intros s HI; [done|].
  simpl. apply IH. by apply Inv_step.
Qed.

(** ** Recency order *)

Lemma timely_weaken (a b : Q) (s : State) : a <= b -> timely a s -> timely b s.
Proof.
  intros Hab [Ho Hh]. split; [done|].
  destruct (head (trail s)); [|done]. by eapply Qle_trans.
Qed.

Lemma timely_take (last : Q) (k : nat) (tr : list TrailPoint) :
  time_ordered tr ->
  match head tr with Some p => t p <= last | None => True end ->
  time_ordered (take k tr) /\
  match head (take k tr) with Some p => t p <= last | None => True end.
Proof.
  intros Ho Hh. split; [by apply time_ordered_take|].
  destruct tr as [|p tr]; [by destruct k|]. by destruct k.
Qed.

Lemma timely_record (px py now : Q) (s : State) :
  timely now s -> timely now (record px py now s).
Proof.
  intros [Ho Hh]. unfold timely. rewrite record_trail.
  destruct (accepts_dec px py (trail s)); [|done].
  apply (timely_take now TRAIL_MAX).
  - simpl. split; [|done]. by destruct (trail s).
  - simpl. apply Qle_refl.
Qed.

Lemma timely_tick (last now : Q) (s : State) : timely last s -> timely last (tick now s).
Proof.
  intros [Ho Hh]. unfold timely. rewrite tick_trail.
  destruct (expire_prefix (now - TRAIL_DURATION) (trail s)) as (k & _ & ->).
  by apply (timely_take last k).
Qed.

Lemma timely_animationFrame (last now : Q) (s : State) :
  timely last s -> timely last (animationFrame now s).
Proof.
  unfold animationFrame. intros H.
  assert (timely last (take_callbacks s)) as H0 by exact H.
  revert H0. generalize (take_callbacks s).
  induction (pending s) as [|h l IH]; intros s0 H0; simpl; [done|].
  apply IH. by apply timely_tick.
Qed.

Lemma timely_run (evs : list Event) :
  forall (last : Q) (s : State),
    clock_monotone last evs -> timely last s -> time_ordered (trail (run evs s)).
Proof.
  unfold run. induction evs as [|ev evs IH]; intros last s Hc Hs; simpl.
  - by destruct Hs.
  - simpl in Hc. destruct ev as [e rect now| |w h now|now]; simpl in Hc |- *.
    + destruct Hc as [Hle Hc]. apply (IH now); [done|].
      apply timely_record. by apply (timely_weaken last).
    + apply (IH last); [done|].
      unfold onMouseLeave, timely. by rewrite startLoop_trail.
    + destruct Hc as [Hle Hc]. apply (IH now); [done|].
      by apply (timely_weaken last).
    + destruct Hc as [Hle Hc]. apply (IH now); [done|].
      apply timely_animationFrame. by apply (timely_weaken last).
Qed.

(** On a trail in recency order a tick leaves no point older than
    [TRAIL_DURATION]. *)
Lemma tick_drops_older (now : Q) (s : State) (p : TrailPoint) :
  time_ordered (trail s) -> p ∈ trail (tick now s) -> now - t p <= TRAIL_DURATION.
Proof.
  intros Ho Hp. rewrite tick_trail in Hp.
  pose proof (expire_time_ordered _ _ Ho p Hp) as H. Lqa.lra.
Qed.

(** With the loop running whenever the trail is not empty, every frame
    leaves only points of age at most [TRAIL_DURATION]. *)
Lemma frame_drops_older (now : Q) (s : State) (p : TrailPoint) :
  Inv s -> time_ordered (trail s) ->
  p ∈ trail (animationFrame now s) -> now - t p <= TRAIL_DURATION.
Proof.
  intros [Hb Hd Hh Hs Hr] Ho. unfold animationFrame. rewrite Hh.
  destruct (rafId s) as [h|] eqn:E; simpl.
  - by apply tick_drops_older.
  - destruct (trail s) as [|q tr] eqn:Et.
    + intros Hp. by apply elem_of_nil in Hp.
    + exfalso. by apply Hr.
Qed.

(** In every run whose clock does not go back, the points left by a frame
    at [now] have age at most [TRAIL_DURATION]. *)
Lemma run_frame_drops_older (evs : list Event) (h0 : nat) (w h : Z) (now0 now : Q)
                            (p : TrailPoint) :
  clock_monotone now0 evs ->
  p ∈ trail (step (Frame now) (run evs (init_state h0 w h now0))) ->
  now - t p <= TRAIL_DURATION.
Proof.
  intros Hc. simpl. apply frame_drops_older.
  - apply Inv_run, Inv_init.
  - apply (timely_run evs now0); [done|]. by split.
Qed.

(** * The fragment shader *)

Section ShaderFacts.

Local Open Scope R_scope.

Lemma clamp_unit (a : R) : 0 <= Shader.clamp a 0 1 <= 1.
Proof.
  unfold Shader.clamp. split.
  - apply Rmin_glb; [apply Rmax_r | lra].
  - apply Rmin_r.
Qed.

Lemma smoothstep_unit (e0 e1 a : R) : 0 <= Shader.smoothstep e0 e1 a <= 1.
Proof.
  unfold Shader.smoothstep.
  pose proof (clamp_unit ((a - e0) / (e1 - e0))) as [H0 H1].
  set (u := Shader.clamp ((a - e0) / (e1 - e0)) 0 1) in *. cbv zeta.
  split.
  - apply Rmult_le_pos; [apply Rmult_le_pos; lra | lra].
  - assert (0 <= (1 - u) * (1 - u) * (1 + 2 * u)) as H.
    { apply Rmult_le_pos; [apply Rmult_le_pos; lra | lra]. }
    lra.
Qed.

Lemma falloff_unit (d : R) : 0 <= Shader.falloff d <= 1.
Proof.
  unfold Shader.falloff.
  pose proof (smoothstep_unit 0 Shader.HOVER_RADIUS d). lra.
Qed.

(** The falloff is 1 at the sample itself. *)
Lemma falloff_zero : Shader.falloff 0 = 1.
Proof.
  unfold Shader.falloff, Shader.smoothstep, Shader.clamp, Shader.HOVER_RADIUS.
  replace ((0 - 0) / (100.0 - 0)) with 0 by lra.
  rewrite Rmax_left by lra. rewrite Rmin_left by lra. lra.
Qed.

(** The falloff vanishes from [HOVER_RADIUS] on. *)
Lemma falloff_far (d : R) : Shader.HOVER_RADIUS <= d -> Shader.falloff d = 0.
Proof.
  unfold Shader.falloff, Shader.smoothstep, Shader.clamp, Shader.HOVER_RADIUS.
  intros Hd.
  assert (1 <= (d - 0) / (100.0 - 0)) as H by lra.
  rewrite (Rmax_left ((d - 0) / (100.0 - 0)) 0) by lra.
  rewrite Rmin_right by lra. lra.
Qed.

Lemma greatest_nonneg (l : list R) : 0 <= Shader.greatest l.
Proof.
  induction l as [|a l IH]; simpl; [lra|].
  eapply Rle_trans; [exact IH | apply Rmax_r].
Qed.

Lemma greatest_upper (l : list R) (a : R) : a ∈ l -> a <= Shader.greatest l.
Proof.
  induction l as [|b l IH]; intros Ha.
  - by apply elem_of_nil in Ha.
  - apply elem_of_cons in Ha as [->|Ha]; simpl.
    + apply Rmax_l.
    + eapply Rle_trans; [by apply IH | apply Rmax_r].
Qed.

Lemma greatest_attained (l : list R) :
  Shader.greatest l = 0 \/ Shader.greatest l ∈ l.
Proof.
  induction l as [|b l IH]; simpl; [by left|].
  destruct (Rle_dec b (Shader.greatest l)) as [Hle|Hgt].
  - rewrite Rmax_right by done. destruct IH as [IH|IH]; [by left|].
    right. by right.
  - rewrite Rmax_left by lra. right. left.
Qed.

(** The loop computes a running maximum: after [n] slots from index [i]
    the accumulator is the greatest of its initial value and the
    contributions of those slots. *)
Lemma accumulate_greatest (c : Shader.vec2) (u : nat -> Shader.vec3) (n : nat) :
  forall (i : nat) (m : R),
    0 <= m ->
    Shader.accumulate n i c u m =
      Rmax m (Shader.greatest (map (Shader.contribution c u) (seq i n))).
Proof.
  induction n as [|n IH]; intros i m Hm; simpl.
  - by rewrite Rmax_left.
  - pose proof (greatest_nonneg (map (Shader.contribution c u) (seq (S i) n))) as Hg.
    pose proof (falloff_unit (Shader.length (Shader.sub2 c (Shader.xy (u i))))) as [Hf _].
    fold (Shader.falloff (Shader.length (Shader.sub2 c (Shader.xy (u i))))).
    fold (Shader.contribution c u i).
    destruct (Rle_dec (Shader.v3z (u i)) 0) as [Hz|Hz].
    + rewrite IH by done. f_equal.
      rewrite Rmax_right; [done|].
      eapply Rle_trans; [|exact Hg].
      unfold Shader.contribution.
      rewrite <- (Rmult_0_l (Shader.falloff (Shader.length (Shader.sub2 c (Shader.xy (u i)))))).
      by apply Rmult_le_compat_r.
    + rewrite IH.
      * by rewrite Rmax_assoc.
      * eapply Rle_trans; [exact Hm | apply Rmax_l].
Qed.

Lemma main_cases (fc : Shader.vec2) (u : nat -> Shader.vec3) :
  Shader.main fc u =
    if Rgt_dec (Shader.sdf fc) 0 then Shader.vec4_of 0
    else if Rgt_dec (Shader.sdf fc) (- Shader.BORDER_WIDTH)
         then Shader.mix (Shader.vec4_of 0) Shader.COLOR_BORDER_HOVER
                (Shader.greatest (Shader.contributions (Shader.cell_center fc) u))
         else Shader.vec4_of 0.
Proof.
  change (Shader.main fc u) with
    (if Rgt_dec (Shader.sdf fc) 0 then Shader.vec4_of 0
     else if Rgt_dec (Shader.sdf fc) (- Shader.BORDER_WIDTH)
          then Shader.mix (Shader.vec4_of 0) Shader.COLOR_BORDER_HOVER
                 (Shader.accumulate Shader.TRAIL_MAX 0 (Shader.cell_center fc) u 0)
          else Shader.vec4_of 0).
  destruct (Rgt_dec (Shader.sdf fc) 0); [reflexivity|].
  destruct (Rgt_dec (Shader.sdf fc) (- Shader.BORDER_WIDTH)); [|reflexivity].
  rewrite accumulate_greatest by lra.
  unfold Shader.contributions.
  rewrite Rmax_right by apply greatest_nonneg. reflexivity.
Qed.

End ShaderFacts.

(** * The shader at a sample pixel

    Pixel (5, 24) lies in the cell whose centre is (24, 24), one pixel
    inside its left edge. *)

Section ShaderSample.

Local Open Scope R_scope.

Lemma floor_unit (a : R) : 0 <= a < 1 -> Shader.floor a = 0.
Proof.
  intros [H0 H1]. unfold Shader.floor.
  rewrite <- (Int_part_spec a 0%Z); [reflexivity|]. simpl. lra.
Qed.

Lemma length_axis (a : R) : 0 <= a -> Shader.length (Shader.mkvec2 a 0) = a.
Proof.
  intros Ha. unfold Shader.length. simpl.
  replace (a * a + 0 * 0) with (a * a) by lra. by apply sqrt_square.
Qed.

Lemma cell_center_sample :
  Shader.cell_center (Shader.mkvec2 5 24) = Shader.mkvec2 24 24.
Proof.
  unfold Shader.cell_center, Shader.GRID_SIZE. simpl.
  rewrite !floor_unit by lra. f_equal; lra.
Qed.

Lemma sdf_sample : Shader.sdf (Shader.mkvec2 5 24) = -1.
Proof.
  unfold Shader.sdf. rewrite cell_center_sample. cbv zeta.
  unfold Shader.sub2, Shader.GRID_SIZE, Shader.GRID_GAP, Shader.CORNER_RADIUS.
  cbn [Shader.v2x Shader.v2y].
  rewrite (Rabs_left (5 - 24)) by lra.
  replace (24 - 24) with 0 by lra. rewrite Rabs_R0.
  set (inner := 48.0 * 0.5 - 4.0 - 6.0).
  assert (inner = 14) as Hinner by (unfold inner; lra).
  rewrite (Rmax_left (- (5 - 24) - inner) 0) by lra.
  rewrite (Rmax_right (0 - inner) 0) by lra.
  rewrite (Rmax_left (- (5 - 24) - inner) (0 - inner)) by lra.
  rewrite Rmin_right by lra.
  rewrite length_axis by lra. lra.
Qed.

End ShaderSample.

Section ShaderBounds.

Local Open Scope R_scope.

Lemma greatest_lub (l : list R) (M : R) :
  0 <= M -> (forall a, a ∈ l -> a <= M) -> Shader.greatest l <= M.
Proof.
  intros HM. induction l as [|b l IH]; intros Hall; simpl; [done|].
  apply Rmax_lub.
  - apply Hall. left.
  - apply IH. intros a Ha. apply Hall. by right.
Qed.

(** A slot contributes no more than its influence, and nothing when its
    influence is not positive. *)
Lemma contribution_le (c : Shader.vec2) (u : nat -> Shader.vec3) (i : nat) (M : R) :
  0 <= M -> Shader.v3z (u i) <= M -> Shader.contribution c u i <= M.
Proof.
  intros HM Hz. unfold Shader.contribution.
  pose proof (falloff_unit (Shader.length (Shader.sub2 c (Shader.xy (u i))))) as [H0 H1].
  set (f := Shader.falloff _) in *.
  destruct (Rle_dec (Shader.v3z (u i)) 0) as [Hn|Hp].
  - apply Rle_trans with 0; [|done].
    rewrite <- (Rmult_0_l f). by apply Rmult_le_compat_r.
  - apply Rle_trans with (Shader.v3z (u i) * 1); [|lra].
    apply Rmult_le_compat_l; lra.
Qed.

Lemma elem_of_contributions (c : Shader.vec2) (u : nat -> Shader.vec3) (a : R) :
  a ∈ Shader.contributions c u <->
  exists i : nat, (i < Shader.TRAIL_MAX)%nat /\ a = Shader.contribution c u i.
Proof.
  unfold Shader.contributions. rewrite list_elem_of_In, in_map_iff. split.
  - intros (i & <- & Hi). apply in_seq in Hi. exists i. split; [lia|done].
  - intros (i & Hi & ->). exists i. split; [done|]. apply in_seq. lia.
Qed.

Lemma total_const (l : list R) (v : R) :
  (forall a, a ∈ l -> a = v) -> Shader.total l = INR (length l) * v.
Proof.
  induction l as [|b l IH]; intros Hall.
  - simpl. lra.
  - change (Shader.total (b :: l)) with (b + Shader.total l).
    change (length (b :: l)) with (S (length l)). rewrite S_INR.
    rewrite IH by (intros a Ha; apply Hall; by right).
    rewrite (Hall b) by left. lra.
Qed.

End ShaderBounds.

(** ** Squared and Euclidean distance *)

Lemma Qsquare_nonneg (a : Q) : 0 <= a * a.
Proof. Lqa.nra. Qed.

Lemma dist2_nonneg (px py : Q) (p : TrailPoint) : 0 <= dist2 px py p.
Proof.
  unfold dist2.
  pose proof (Qsquare_nonneg (px - x p)). pose proof (Qsquare_nonneg (py - y p)).
  Lqa.lra.
Qed.

(** Comparing squares, as the code does, is comparing distances. *)
Lemma min_dist_distance (px py : Q) (p : TrailPoint) :
  TRAIL_MIN_DIST * TRAIL_MIN_DIST <= dist2 px py p <->
  (8 <= distance px py p)%R.
Proof.
  unfold distance.
  assert (Q2R (TRAIL_MIN_DIST * TRAIL_MIN_DIST) = (8 * 8)%R) as H64.
  { unfold TRAIL_MIN_DIST. rewrite Q2R_mult. unfold Q2R. simpl. Lra.lra. }
  assert (sqrt (8 * 8) = 8%R) as Hs by (apply sqrt_square; Lra.lra).
  assert (0 <= Q2R (dist2 px py p))%R as Hpos.
  { replace 0%R with (Q2R 0) by (unfold Q2R; simpl; Lra.lra).
    apply Qle_Rle, dist2_nonneg. }
  split; intros H.
  - apply Qle_Rle in H. rewrite H64 in H.
    rewrite <- Hs. by apply sqrt_le_1_alt.
  - apply Rle_Qle. rewrite H64.
    destruct (Rle_dec (8 * 8) (Q2R (dist2 px py p))) as [Hle|Hlt]; [done|].
    exfalso. apply Rnot_le_lt in Hlt.
    pose proof (sqrt_lt_1_alt _ _ (conj Hpos Hlt)) as Hc.
    rewrite Hs in Hc. Lra.lra.
Qed.

(** * Properties of the effect *)

Lemma spaced_lookup (tr : list TrailPoint) :
  spaced tr ->
  forall (i : nat) (p q : TrailPoint),
    tr !! i = Some p -> tr !! S i = Some q ->
    TRAIL_MIN_DIST * TRAIL_MIN_DIST <= dist2 (x p) (y p) q.
Proof.
  induction tr as [|a tr IH]; intros Hs i p q Hp Hq; [done|].
  destruct Hs as [Hhd Htl]. destruct i as [|i]; simpl in Hp, Hq.
  - inversion Hp; subst a. destruct tr as [|b tr]; [done|].
    simpl in Hq. by inversion Hq; subst b.
  - by apply (IH Htl i).
Qed.

(** C1, at its own scenario.  A single point is recorded at [t = 0] and the
    browser runs the frame callback at [now = 500]: the age of the point is
    [TRAIL_DURATION] and the influence written for it is [0], yet [tick]
    pops only points with [t < now - TRAIL_DURATION], so the point stays in
    the trail and one more frame is requested.  It goes at the next frame. *)
Theorem tick_at_duration_keeps_point :
  let rect := mkDOMRect 0 0 100 100 in
  let s1 := run [MouseMove (mkMouseEvent 0 100) rect 0] (init_state 1 100 100 0) in
  let s2 := tick 500 (take_callbacks s1) in
  let s3 := step (Frame 501) s2 in
  map t (trail s1) = [0] /\
  step (Frame 500) s1 = s2 /\
  trail s2 = trail s1 /\
  trailData s2 !! 2%nat = Some 0 /\
  rafId s2 = Some 2%nat /\ pending s2 = [2%nat] /\
  trail s3 = [] /\ rafId s3 = None /\ pending s3 = [].
Proof. vm_compute. repeat split; reflexivity. Qed.

Lemma reachable_Inv (s : State) : reachable s -> Inv s.
Proof.
  induction 1.
  - apply Inv_init.
  - by apply Inv_record.
  - by apply Inv_startLoop.
  - by apply Inv_syncSize.
  - by apply Inv_animationFrame.
Qed.



Lemma Qmax_0_nonpos (v : Q) : v <= 0 -> Qmax 0 v = 0.
Proof.
  intros Hv. unfold Qmax, GenericMinMax.gmax.
  destruct (0 ?= v) eqn:E; try reflexivity.
  apply Qlt_alt in E. exfalso. exact (Qlt_not_le _ _ E Hv).
Qed.

Lemma influence_monotone (p : TrailPoint) (now later : Q) :
  now <= later -> influence later p <= influence now p.
Proof.
  intros H. unfold influence. apply Q.max_le_compat_l.
  unfold TRAIL_DURATION, Qdiv.
  assert ((now - t p) * / 500 <= (later - t p) * / 500) as Hd.
  { apply Qmult_le_compat_r; [Lqa.lra | done]. }
  Lqa.lra.
Qed.

Lemma influence_expired (p : TrailPoint) (now : Q) :
  TRAIL_DURATION <= now - t p -> influence now p = 0.
Proof.
  intros H. unfold influence. apply Qmax_0_nonpos.
  unfold TRAIL_DURATION, Qdiv in *.
  assert (500 * / 500 <= (now - t p) * / 500) as Hd.
  { apply Qmult_le_compat_r; [done | done]. }
  assert (500 * / 500 == 1) as H1 by reflexivity.
  Lqa.lra.
Qed.

Lemma influence_unit (p : TrailPoint) (now : Q) :
  t p <= now -> 0 <= influence now p <= 1.
Proof.
  intros H. unfold influence. split; [apply Q.le_max_l|].
  apply Q.max_lub; [done|].
  unfold TRAIL_DURATION, Qdiv.
  assert (0 <= (now - t p) * / 500) as Hd.
  { apply Qmult_le_0_compat; [Lqa.lra | done]. }
  Lqa.lra.
Qed.

(** C3.  For a point of the trail recorded at [t p] and a render at
    [now >= t p], the third entry of its uniform slot is
    [max(0, 1 - (now - t p) / TRAIL_DURATION)]; the value lies between 0 and
    1, does not increase as the render time (so the age) grows, and is
    exactly [0] once the age has reached [TRAIL_DURATION]. *)
Theorem render_influence (now : Q) (s : State) (i : nat) (p : TrailPoint) :
  length (trailData s) = (TRAIL_MAX * 3)%nat ->
  (i < TRAIL_MAX)%nat ->
  trail s !! i = Some p ->
  t p <= now ->
  trailData (render now s) !! (i * 3 + 2)%nat =
    Some (Qmax 0 (1 - (now - t p) / TRAIL_DURATION)) /\
  0 <= Qmax 0 (1 - (now - t p) / TRAIL_DURATION) <= 1 /\
  (forall later : Q,
     now <= later ->
     Qmax 0 (1 - (later - t p) / TRAIL_DURATION) <=
     Qmax 0 (1 - (now - t p) / TRAIL_DURATION)) /\
  (forall later : Q,
     TRAIL_DURATION <= later - t p ->
     Qmax 0 (1 - (later - t p) / TRAIL_DURATION) = 0).
Proof.
  intros Hlen Hi Hp Ht. split; [|split; [|split]].
  - rewrite render_trailData.
    pose proof (build_trailData_slot now (trail s) (trailData s) i) as Hs.
    rewrite Hp in Hs. unfold slot in Hs.
    assert (i * 3 + 2 < length (trailData s))%nat as Hin
      by (rewrite Hlen; unfold TRAIL_MAX in *; lia).
    specialize (Hs Hin).
    destruct (build_trailData now (trail s) (trailData s) !! (i * 3)%nat); [|done].
    destruct (build_trailData now (trail s) (trailData s) !! (i * 3 + 1)%nat); [|done].
    destruct (build_trailData now (trail s) (trailData s) !! (i * 3 + 2)%nat); [|done].
    by inversion Hs.
  - by apply (influence_unit p now).
  - intros later Hl. by apply (influence_monotone p now later).
  - intros later Hl. by apply (influence_expired p later).
Qed.

Lemma render_influence_witness :
  let s := run [MouseMove (mkMouseEvent 0 100) (mkDOMRect 0 0 100 100) 0]
               (init_state 1 100 100 0) in
  trailData (render 250 s) !! 2%nat = Some (Qmax 0 (1 - (250 - 0) / TRAIL_DURATION)).
Proof.
  intros s.
  refine (proj1 (render_influence 250 s 0 (mkTrailPoint _ _ 0) _ _ _ _)).
  - reflexivity.
  - unfold TRAIL_MAX. lia.
  - reflexivity.
  - vm_compute. discriminate.
Defined.

Lemma take_removelast (tr : list TrailPoint) (n : nat) :
  length tr = S n -> take n tr = removelast tr.
Proof.
  intros H. rewrite removelast_firstn_len. by rewrite H.
Qed.

(** C4.  In every run of pointer moves, pointer leaves, resizes and frames
    the trail holds at most [TRAIL_MAX] points.  A recorded move puts the
    new point in front of the trail and keeps the first [TRAIL_MAX] entries
    of the result, so what is dropped is at the tail: on a full trail the
    oldest point goes and the length is [TRAIL_MAX] again. *)
Theorem trail_bounded (evs : list Event) (h0 : nat) (w h : Z) (now0 : Q) :
  (length (trail (run evs (init_state h0 w h now0))) <= TRAIL_MAX)%nat /\
  (forall (e : MouseEvent) (rect : DOMRect) (now : Q) (s : State),
     let p := mkTrailPoint (pointer_x e rect s) (pointer_y e rect s) now in
     accepts (pointer_x e rect s) (pointer_y e rect s) (trail s) ->
     trail (onMouseMove e rect now s) = take TRAIL_MAX (p :: trail s) /\
     length (trail (onMouseMove e rect now s)) =
       Nat.min TRAIL_MAX (S (length (trail s))) /\
     (length (trail s) = TRAIL_MAX ->
      trail (onMouseMove e rect now s) = p :: removelast (trail s))) /\
  (forall (now : Q) (s : State),
     (length (trail (tick now s)) <= length (trail s))%nat).
Proof.
  split; [|split].
  - apply inv_bound, Inv_run, Inv_init.
  - intros e rect now s p Ha.
    assert (trail (onMouseMove e rect now s) = take TRAIL_MAX (p :: trail s)) as E.
    { unfold onMouseMove. rewrite record_accepted by done. by rewrite startLoop_trail. }
    rewrite E. split; [done|]. split.
    + by rewrite length_take.
    + intros Hfull. unfold TRAIL_MAX in *.
      change (take 50 (p :: trail s)) with (p :: take 49 (trail s)).
      f_equal. by apply take_removelast.
  - intros now s. rewrite tick_trail.
    destruct (expire_prefix (now - TRAIL_DURATION) (trail s)) as (k & Hk & ->).
    rewrite length_take. lia.
Qed.

(** Fifty moves 10 px apart fill the trail; the next accepted move drops
    the oldest point and the length stays [TRAIL_MAX]. *)
Lemma trail_bounded_witness :
  let rect := mkDOMRect 0 0 1000 1000 in
  let move := fun k : nat =>
    MouseMove (mkMouseEvent (inject_Z (10 * Z.of_nat k)) 1000) rect
              (inject_Z (Z.of_nat k)) in
  let s := run (map move (seq 0 50)) (init_state 1 1000 1000 0) in
  let e := mkMouseEvent 500 1000 in
  length (trail s) = TRAIL_MAX /\
  trail (onMouseMove e rect 50 s) =
    mkTrailPoint (pointer_x e rect s) (pointer_y e rect s) 50 :: removelast (trail s) /\
  length (trail (onMouseMove e rect 50 s)) = TRAIL_MAX /\
  (length (trail (run (map move (seq 0 51)) (init_state 1 1000 1000 0))) <= TRAIL_MAX)%nat.
Proof.
  intros rect move s e.
  assert (length (trail s) = TRAIL_MAX) as Hfull by (vm_compute; reflexivity).
  assert (accepts (pointer_x e rect s) (pointer_y e rect s) (trail s)) as Hacc
    by (vm_compute; discriminate).
  destruct (trail_bounded (map move (seq 0 51)) 1 1000 1000 0) as (Hbound & Hins & _).
  destruct (Hins e rect 50 s Hacc) as (_ & Hlen & Hdrop).
  split; [exact Hfull|]. split; [exact (Hdrop Hfull)|]. split; [|exact Hbound].
  rewrite Hlen, Hfull. reflexivity.
Defined.

(** C5.  Whatever the buffer held before, after [render now] it still has
    [TRAIL_MAX * 3] entries; for each [i < TRAIL_MAX], slot [i] holds
    [(x, y, influence)] of the [i]-th point of the trail (index 0 is the
    most recent) and is exactly [(0, 0, 0)] when the trail has no [i]-th
    point; that buffer is what is uploaded before the draw call.  The length
    never changes in any run. *)
Theorem render_rebuilds_buffer (now : Q) (s : State) :
  length (trailData s) = (TRAIL_MAX * 3)%nat ->
  length (trailData (render now s)) = (TRAIL_MAX * 3)%nat /\
  (forall i : nat,
     (i < TRAIL_MAX)%nat ->
     slot (trailData (render now s)) i =
       Some (match trail s !! i with
             | Some p => (x p, y p, Qmax 0 (1 - (now - t p) / TRAIL_DURATION))
             | None => (0, 0, 0)
             end)) /\
  gl_calls (render now s) =
    DrawArrays 0 6 :: Uniform3fv (trailData (render now s)) :: Clear ::
    Viewport 0 0 (canvas_width s) (canvas_height s) :: gl_calls s /\
  (forall (evs : list Event) (h0 : nat) (w h : Z) (now0 : Q),
     length (trailData (run evs (init_state h0 w h now0))) = (TRAIL_MAX * 3)%nat).
Proof.
  intros Hlen. split; [|split; [|split]].
  - by rewrite render_trailData, build_trailData_length.
  - intros i Hi. rewrite render_trailData.
    apply build_trailData_slot. rewrite Hlen. unfold TRAIL_MAX in *. lia.
  - reflexivity.
  - intros evs h0 w h now0. apply inv_buffer, Inv_run, Inv_init.
Qed.

Lemma render_rebuilds_buffer_witness :
  let stale := set_trailData (replicate (TRAIL_MAX * 3) 7) (fresh_state 1) in
  slot (trailData stale) 3 = Some (7, 7, 7) /\
  slot (trailData (render 0 stale)) 3 = Some (0, 0, 0).
Proof.
  intros stale. split; [reflexivity|].
  refine (proj1 (proj2 (render_rebuilds_buffer 0 stale eq_refl)) 3%nat _).
  unfold TRAIL_MAX. lia.
Defined.

(** With no point, no handle and no callback pending, a resize or a frame
    changes none of the three. *)
Lemma idle_passive (ev : Event) (s : State) :
  passive ev = true ->
  trail s = [] /\ rafId s = None /\ pending s = [] ->
  trail (step ev s) = [] /\ rafId (step ev s) = None /\ pending (step ev s) = [].
Proof.
  intros Hp (Ht & Hr & Hq). destruct ev as [e rect now| |w h now|now]; try done.
  simpl. unfold animationFrame. rewrite Hq. simpl. auto.
Qed.

Lemma idle_passive_run (evs : list Event) :
  forall s : State,
    forallb passive evs = true ->
    trail s = [] /\ rafId s = None /\ pending s = [] ->
    trail (run evs s) = [] /\ rafId (run evs s) = None /\ pending (run evs s) = [].
Proof.
  unfold run. induction evs as [|ev evs IH]; intros s Hp Hs; [done|].
  simpl in Hp. apply andb_true_iff in Hp as [Hev Hevs].
  simpl. apply IH; [done|]. by apply idle_passive.
Qed.

(** C6 as stated fails: after a tick that left the trail empty, a pointer
    leave requests a frame although no point has been recorded. *)
Lemma leave_schedules_on_empty_trail :
  ~ (forall (now : Q) (s : State) (evs : list Event),
       pending s = [] ->
       trail (tick now s) = [] ->
       (forall k : nat, trail (run (take k evs) (tick now s)) = []) ->
       rafId (run evs (tick now s)) = None /\ pending (run evs (tick now s)) = []).
Proof.
  intros H.
  pose (s := take_callbacks
               (run [MouseMove (mkMouseEvent 0 100) (mkDOMRect 0 0 100 100) 0]
                    (init_state 1 100 100 0))).
  destruct (H 600 s [MouseLeave] eq_refl eq_refl) as [Hr _].
  - intros [|[|k]]; reflexivity.
  - vm_compute in Hr. discriminate Hr.
Qed.

(** C6, amended.  When [tick] runs as a frame callback (the browser has
    emptied its queue): if the trail is empty after the expiry step, the
    handle becomes null and nothing is pending, and this stays so through
    any resizes and frames, until a pointer event: a pointer move (recorded,
    as the trail is empty) or a pointer leave requests one frame.  If the
    trail is not empty, exactly one next tick is pending. *)
Theorem tick_schedules_next (now : Q) (s : State) :
  pending s = [] ->
  (trail (tick now s) = [] ->
   rafId (tick now s) = None /\ pending (tick now s) = [] /\
   (forall evs : list Event,
      forallb passive evs = true ->
      trail (run evs (tick now s)) = [] /\
      rafId (run evs (tick now s)) = None /\
      pending (run evs (tick now s)) = []) /\
   (forall ev : Event,
      passive ev = false ->
      pending (step ev (tick now s)) = [next_handle (tick now s)])) /\
  (trail (tick now s) <> [] ->
   rafId (tick now s) = Some (next_handle s) /\
   pending (tick now s) = [next_handle s]).
Proof.
  intros Hq. pose proof (tick_schedule now s) as Hs. split.
  - intros He. rewrite He in Hs. destruct Hs as [Hr Hp]. rewrite Hq in Hp.
    split; [done|]. split; [done|]. split.
    + intros evs Hev. by apply idle_passive_run.
    + intros ev Hev. destruct ev as [e rect t0| |w h t0|t0]; try done; simpl.
      * unfold onMouseMove. rewrite record_accepted by (unfold accepts; by rewrite He).
        rewrite startLoop_idle by done. simpl. by rewrite Hp.
      * unfold onMouseLeave. rewrite startLoop_idle by done. simpl. by rewrite Hp.
  - intros Hne. destruct (trail (tick now s)); [done|].
    destruct Hs as [Hr Hp]. by rewrite Hp, Hq.
Qed.

Lemma tick_schedules_next_witness :
  let s := take_callbacks
             (run [MouseMove (mkMouseEvent 0 100) (mkDOMRect 0 0 100 100) 0]
                  (init_state 1 100 100 0)) in
  rafId (tick 600 s) = None /\ pending (tick 600 s) = [] /\
  pending (step MouseLeave (tick 600 s)) = [2%nat].
Proof.
  intros s.
  pose proof (proj1 (tick_schedules_next 600 s eq_refl) eq_refl) as (Hr & Hp & _ & Hev).
  split; [exact Hr|]. split; [exact Hp|].
  exact (Hev MouseLeave eq_refl).
Defined.

(** C8.  The pointer-leave handler leaves the trail, the uniform buffer,
    the canvas size and the WebGL calls as they are.  With a frame already
    requested it changes nothing at all; with none, it requests exactly
    one. *)
Theorem onMouseLeave_keeps_trail (s : State) :
  trail (onMouseLeave s) = trail s /\
  trailData (onMouseLeave s) = trailData s /\
  canvas_width (onMouseLeave s) = canvas_width s /\
  canvas_height (onMouseLeave s) = canvas_height s /\
  gl_calls (onMouseLeave s) = gl_calls s /\
  (forall h : nat, rafId s = Some h -> onMouseLeave s = s) /\
  (rafId s = None ->
   rafId (onMouseLeave s) = Some (next_handle s) /\
   pending (onMouseLeave s) = pending s ++ [next_handle s]).
Proof.
  unfold onMouseLeave, startLoop.
  destruct (rafId s) as [h|] eqn:E; simpl; repeat split; try done.
Qed.

Lemma onMouseLeave_keeps_trail_witness :
  let s := run [MouseMove (mkMouseEvent 0 100) (mkDOMRect 0 0 100 100) 0;
                Frame 600] (init_state 1 100 100 0) in
  rafId s = None /\ pending s = [] /\
  pending (onMouseLeave s) = pending s ++ [next_handle s] /\
  onMouseLeave (onMouseLeave s) = onMouseLeave s.
Proof.
  intros s.
  destruct (onMouseLeave_keeps_trail s) as (_ & _ & _ & _ & _ & _ & Hidle).
  destruct (onMouseLeave_keeps_trail (onMouseLeave s)) as (_ & _ & _ & _ & _ & Hbusy & _).
  split; [reflexivity|]. split; [reflexivity|]. split.
  - exact (proj2 (Hidle eq_refl)).
  - exact (Hbusy 2%nat eq_refl).
Defined.

(** An instance without a closure ignores every event. *)
Lemma deliver_all_inactive (evs : list Event) (i : Instance) :
  active i = None -> deliver_all evs i = i.
Proof.
  intros Hi. unfold deliver_all. induction evs as [|ev evs IH]; [done|].
  simpl. unfold deliver at 2. rewrite Hi. exact IH.
Qed.

(** C9.  If [canvasRef.current] or [containerRef.current] is null, or the
    canvas gives no WebGL context, the effect returns normally without
    throwing, having registered no listener, connected no observer and
    created no GPU object; it has written at most one console warning, and
    that only when both elements were there but the context was not.  It
    returned no cleanup, so the instance ignores every later event and its
    unmounting does nothing. *)
Theorem mount_unavailable (canvasRef : option Canvas) (containerRef : option Container)
                          (h0 : nat) (now : Q) :
  canvasRef = None \/ containerRef = None \/
  (exists canvas, canvasRef = Some canvas /\ getContext canvas = None) ->
  let outcome := fst (mount canvasRef containerRef h0 now) in
  let i := snd (mount canvasRef containerRef h0 now) in
  outcome = Returned /\
  active i = None /\ has_cleanup i = false /\
  listeners i = [] /\ observing i = false /\ gl_objects i = [] /\
  (console i = [] \/
   console i = [not_supported] /\ is_Some canvasRef /\ is_Some containerRef) /\
  (canvasRef = None \/ containerRef = None -> console i = []) /\
  (forall evs : list Event, deliver_all evs i = i) /\
  (forall evs : list Event, unmount (deliver_all evs i) = i).
Proof.
  intros H outcome i.
  assert (exists warnings,
             mount canvasRef containerRef h0 now = (Returned, inert warnings) /\
             (warnings = [] \/
              warnings = [not_supported] /\ is_Some canvasRef /\ is_Some containerRef) /\
             (canvasRef = None \/ containerRef = None -> warnings = []))
    as (warnings & Hm & Hw & Hn).
  { destruct canvasRef as [canvas|]; [|exists []; simpl; auto].
    destruct containerRef as [container|]; [|exists []; simpl; auto].
    destruct H as [H|[H|(c & Hc & Hctx)]]; try done.
    inversion Hc; subst c. exists [not_supported]. simpl. rewrite Hctx.
    split; [done|]. split; [right; eauto|]. by intros [?|?]. }
  subst outcome i. rewrite Hm. simpl.
  repeat (split; [done|]).
  split; [intros evs; by apply deliver_all_inactive|].
  intros evs. by rewrite deliver_all_inactive.
Qed.

Lemma mount_unavailable_witness :
  let i := snd (mount (Some (mkCanvas None)) (Some (mkContainer 800 600)) 1 0) in
  console i = [not_supported] /\ listeners i = [] /\ gl_objects i = [] /\
  deliver_all [MouseLeave; Frame 16] i = i.
Proof.
  intros i.
  destruct (mount_unavailable (Some (mkCanvas None)) (Some (mkContainer 800 600)) 1 0)
    as (_ & _ & _ & Hl & _ & Hg & _ & _ & Hev & _).
  - right. right. exists (mkCanvas None). split; reflexivity.
  - split; [reflexivity|]. split; [exact Hl|]. split; [exact Hg|].
    exact (Hev [MouseLeave; Frame 16]).
Defined.

(** While an instance is mounted its closure keeps the invariants. *)
Lemma mount_Inv (canvasRef : option Canvas) (containerRef : option Container)
                (h0 : nat) (now : Q) (s : State) :
  active (snd (mount canvasRef containerRef h0 now)) = Some s -> Inv s.
Proof.
  unfold mount.
  destruct canvasRef as [canvas|]; [|done].
  destruct containerRef as [container|]; [|done].
  destruct (getContext canvas) as [gl|]; [|done].
  destruct (compileShader gl VERTEX_SHADER []) as [m1|o1]; [done|].
  destruct (compileShader gl FRAGMENT_SHADER o1) as [m2|o2]; [done|].
  destruct (linkProgram gl o2) as [m3|o3]; [done|].
  simpl. intros [= <-]. apply Inv_init.
Qed.

Lemma deliver_Inv (ev : Event) (i : Instance) :
  (forall s, active i = Some s -> Inv s) ->
  forall s, active (deliver ev i) = Some s -> Inv s.
Proof.
  intros Hi s. unfold deliver. destruct (active i) as [s0|] eqn:E; [|by rewrite E].
  cbv zeta.
  match goal with
  | |- context [if ?b then _ else _] => destruct b
  end.
  - simpl. intros [= <-]. by apply Inv_step, Hi.
  - rewrite E. apply Hi.
Qed.

Lemma deliver_all_Inv (evs : list Event) :
  forall i : Instance,
    (forall s, active i = Some s -> Inv s) ->
    forall s, active (deliver_all evs i) = Some s -> Inv s.
Proof.
  unfold deliver_all. induction evs as [|ev evs IH]; intros i Hi; [done|].
  simpl. apply IH. by apply deliver_Inv.
Qed.

Lemma unmount_pending (i : Instance) (s : State) :
  (forall s0, active i = Some s0 -> Inv s0) ->
  has_cleanup i = true ->
  active (unmount i) = Some s -> pending s = [].
Proof.
  intros Hi Hc. unfold unmount. rewrite Hc.
  destruct (active i) as [s0|] eqn:E; [|by rewrite E].
  simpl. intros [= <-]. pose proof (inv_handle s0 (Hi s0 eq_refl)) as Hh.
  destruct (rafId s0) as [h|]; simpl in *; rewrite Hh; [|done].
  rewrite filter_cons_False by (intros Hne; by apply Hne). done.
Qed.

(** C10.  In every run the browser's queue holds exactly the callback whose
    handle is in [rafId], so at most one: [startLoop] does nothing when a
    handle is set, a [tick] adds at most one callback to the queue, and a
    frame replaces the callback it runs by at most one successor.  The same
    holds for a mounted instance through every delivery of events. *)
Theorem single_pending_frame (evs : list Event) (h0 : nat) (w h : Z) (now0 : Q) :
  let s := run evs (init_state h0 w h now0) in
  pending s = handle_list (rafId s) /\
  (length (pending s) <= 1)%nat /\
  (forall (s' : State) (h' : nat), rafId s' = Some h' -> startLoop s' = s') /\
  (forall (now : Q) (s' : State),
     (length (pending (tick now s')) <= S (length (pending s')))%nat) /\
  (forall now : Q, (length (pending (animationFrame now s)) <= 1)%nat) /\
  (forall (canvasRef : option Canvas) (containerRef : option Container) (s' : State),
     active (deliver_all evs (snd (mount canvasRef containerRef h0 now0))) = Some s' ->
     (length (pending s') <= 1)%nat).
Proof.
  intros s.
  assert (Inv s) as HI by apply Inv_run, Inv_init.
  assert (forall s' : State, Inv s' -> (length (pending s') <= 1)%nat) as Hone.
  { intros s' HI'. rewrite (inv_handle s' HI'). destruct (rafId s'); simpl; lia. }
  split; [by apply inv_handle|]. split; [|split; [|split; [|split]]].
  - by apply Hone.
  - intros s' h' E. by apply (startLoop_scheduled s' h').
  - intros now s'. pose proof (tick_schedule now s') as Hs.
    destruct (trail (tick now s')); destruct Hs as [_ ->];
      [lia | rewrite length_app; simpl; lia].
  - intros now. by apply Hone, Inv_animationFrame.
  - intros canvasRef containerRef s' Hs'. apply Hone.
    apply (deliver_all_Inv evs (snd (mount canvasRef containerRef h0 now0))); [|done].
    intros s0. apply mount_Inv.
Qed.

Lemma single_pending_frame_witness :
  let s := run [MouseMove (mkMouseEvent 0 100) (mkDOMRect 0 0 100 100) 0]
               (init_state 1 100 100 0) in
  rafId s = Some 1%nat /\ startLoop s = s.
Proof.
  intros s. split; [reflexivity|].
  destruct (single_pending_frame [] 1 100 100 0) as (_ & _ & Hbusy & _).
  exact (Hbusy s 1%nat eq_refl).
Defined.

Section FragmentShader.

Local Open Scope R_scope.

(** C7.  For every pixel [fc] and every content of the [TRAIL_MAX] uniform
    slots: the output is transparent when the rounded-box distance of the
    pixel is positive, and when the pixel is [BORDER_WIDTH] or more inside
    the boundary; in the ring between, it is the highlight colour scaled by
    a weight [w].  The weight is the running maximum, from 0, of
    influence times falloff over the slots: no slot contributes more than
    [w], and [w] is 0 or the contribution of one slot, so it never exceeds
    the largest influence, however many samples overlap.  The falloff is 1
    at distance 0 and 0 from [HOVER_RADIUS] on. *)
Theorem fragment_output (fc : Shader.vec2) (u_trail : nat -> Shader.vec3) :
  let c := Shader.cell_center fc in
  let w := Shader.greatest (Shader.contributions c u_trail) in
  (Shader.sdf fc > 0 -> Shader.main fc u_trail = Shader.vec4_of 0) /\
  (Shader.sdf fc <= - Shader.BORDER_WIDTH ->
   Shader.main fc u_trail = Shader.vec4_of 0) /\
  (- Shader.BORDER_WIDTH < Shader.sdf fc <= 0 ->
   Shader.main fc u_trail = Shader.mix (Shader.vec4_of 0) Shader.COLOR_BORDER_HOVER w /\
   Shader.main fc u_trail =
     Shader.mkvec4 (0.557 * w) (0.196 * w) (0.004 * w) (1.0 * w)) /\
  (forall i : nat, (i < Shader.TRAIL_MAX)%nat -> Shader.contribution c u_trail i <= w) /\
  (w = 0 \/
   exists i : nat, (i < Shader.TRAIL_MAX)%nat /\ w = Shader.contribution c u_trail i) /\
  (forall M : R,
     0 <= M ->
     (forall i : nat, (i < Shader.TRAIL_MAX)%nat -> Shader.v3z (u_trail i) <= M) ->
     w <= M) /\
  Shader.falloff 0 = 1 /\
  (forall d : R, Shader.HOVER_RADIUS <= d -> Shader.falloff d = 0) /\
  (forall d : R, 0 <= Shader.falloff d <= 1).
Proof.
  intros c w. pose proof (main_cases fc u_trail) as Hm. fold c w in Hm.
  split; [|split; [|split; [|split; [|split; [|split; [|split; [|split]]]]]]].
  - intros H. rewrite Hm. by destruct (Rgt_dec (Shader.sdf fc) 0).
  - intros H. rewrite Hm.
    destruct (Rgt_dec (Shader.sdf fc) 0) as [H0|H0]; [done|].
    destruct (Rgt_dec (Shader.sdf fc) (- Shader.BORDER_WIDTH)) as [H1|H1]; [lra|done].
  - intros [H1 H2]. rewrite Hm.
    destruct (Rgt_dec (Shader.sdf fc) 0) as [H0|H0]; [lra|].
    destruct (Rgt_dec (Shader.sdf fc) (- Shader.BORDER_WIDTH)) as [H3|H3]; [|lra].
    split; [done|]. unfold Shader.mix, Shader.vec4_of, Shader.COLOR_BORDER_HOVER.
    simpl. f_equal; lra.
  - intros i Hi. apply greatest_upper. apply elem_of_contributions. eauto.
  - destruct (greatest_attained (Shader.contributions c u_trail)) as [H|H]; [by left|].
    right. by apply elem_of_contributions.
  - intros M HM Hall. apply greatest_lub; [done|].
    intros a Ha. apply elem_of_contributions in Ha as (i & Hi & ->).
    apply contribution_le; [done|]. by apply Hall.
  - apply falloff_zero.
  - apply falloff_far.
  - apply falloff_unit.
Qed.

(** Fifty samples of influence 1, all at the centre of the cell: the ring
    pixel gets the highlight colour itself, although the contributions add
    up to 50. *)
Lemma fragment_output_witness :
  let fc := Shader.mkvec2 5 24 in
  let u_trail := fun _ : nat => Shader.mkvec3 24 24 1 in
  Shader.main fc u_trail = Shader.COLOR_BORDER_HOVER /\
  Shader.total (Shader.contributions (Shader.cell_center fc) u_trail) = 50.
Proof.
  intros fc u_trail.
  assert (forall i : nat, Shader.contribution (Shader.mkvec2 24 24) u_trail i = 1) as Hc.
  { intros i. unfold Shader.contribution, u_trail, Shader.xy, Shader.sub2.
    cbn [Shader.v2x Shader.v2y Shader.v3x Shader.v3y Shader.v3z].
    replace (24 - 24) with 0 by lra.
    rewrite length_axis by lra. rewrite falloff_zero. lra. }
  split.
  - destruct (fragment_output fc u_trail) as (_ & _ & Hring & Hupper & _ & Hbound & _).
    destruct Hring as [_ ->].
    { unfold fc. rewrite sdf_sample. unfold Shader.BORDER_WIDTH. lra. }
    set (w := Shader.greatest _) in *.
    assert (w = 1) as ->.
    { apply Rle_antisym.
      - apply Hbound; [lra|]. intros i _. simpl. lra.
      - rewrite <- (Hc 0%nat). unfold fc in Hupper.
        rewrite cell_center_sample in Hupper.
        apply Hupper. unfold Shader.TRAIL_MAX. lia. }
    unfold Shader.COLOR_BORDER_HOVER. f_equal; lra.
  - unfold fc. rewrite cell_center_sample.
    rewrite (total_const _ 1).
    + unfold Shader.contributions. rewrite length_map, length_seq.
      unfold Shader.TRAIL_MAX. rewrite INR_IZR_INZ.
      change (Z.of_nat 50) with 50%Z. lra.
    + intros a Ha. apply elem_of_contributions in Ha as (i & _ & ->). apply Hc.
Defined.

End FragmentShader.

(** * Further properties of the hook *)

(** ** Set-up and tear-down *)

Lemma mount_ready (canvas : Canvas) (container : Container) (gl : GLContext)
                  (h0 : nat) (now : Q) :
  getContext canvas = Some gl ->
  gl_ready gl = true ->
  mount (Some canvas) (Some container) h0 now =
    (Returned,
     mkInstance
       (Some (init_state h0 (clientWidth container) (clientHeight container) now))
       true [mousemove; mouseleave] true
       [BufferObject; ProgramObject; ShaderObject FRAGMENT_SHADER;
        ShaderObject VERTEX_SHADER] []).
Proof.
  intros Hctx Hr. unfold gl_ready in Hr.
  repeat (apply andb_true_iff in Hr as [Hr ?]).
  unfold mount, compileShader, linkProgram. rewrite Hctx.
  by repeat match goal with H : _ = true |- _ => rewrite H; clear H end.
Qed.

Lemma mount_active_ready (canvasRef : option Canvas) (containerRef : option Container)
                         (h0 : nat) (now : Q) :
  is_Some (active (snd (mount canvasRef containerRef h0 now))) ->
  exists canvas container gl,
    canvasRef = Some canvas /\ containerRef = Some container /\
    getContext canvas = Some gl /\ gl_ready gl = true.
Proof.
  unfold mount, gl_ready, compileShader, linkProgram.
  destruct canvasRef as [canvas|]; [|by intros [? ?]].
  destruct containerRef as [container|]; [|by intros [? ?]].
  destruct (getContext canvas) as [gl|] eqn:Hctx; [|by intros [? ?]].
  destruct (createShader gl VERTEX_SHADER) eqn:E1; [|by intros [? ?]].
  destruct (COMPILE_STATUS gl VERTEX_SHADER) eqn:E2; [|by intros [? ?]].
  destruct (createShader gl FRAGMENT_SHADER) eqn:E3; [|by intros [? ?]].
  destruct (COMPILE_STATUS gl FRAGMENT_SHADER) eqn:E4; [|by intros [? ?]].
  destruct (createProgram gl) eqn:E5; [|by intros [? ?]].
  destruct (LINK_STATUS gl) eqn:E6; [|by intros [? ?]].
  intros _. exists canvas, container, gl.
  rewrite E1, E2, E3, E4, E5, E6. repeat split; done.
Qed.

(** X1.  The effect becomes active exactly when both elements exist, the
    canvas gives a WebGL context and every set-up call on it succeeds.  It
    then returns a cleanup, has both pointer listeners and the resize
    observer in place, holds the program, the two shaders and the vertex
    buffer, and has rendered once: the canvas has the size of the container,
    the trail is empty, the buffer is all zeros, exactly one draw call has
    been made and no frame is requested. *)
Theorem mount_sets_up (canvasRef : option Canvas) (containerRef : option Container)
                      (h0 : nat) (now : Q) :
  let i := snd (mount canvasRef containerRef h0 now) in
  (is_Some (active i) <->
   exists canvas container gl,
     canvasRef = Some canvas /\ containerRef = Some container /\
     getContext canvas = Some gl /\ gl_ready gl = true) /\
  (forall s : State,
     active i = Some s ->
     fst (mount canvasRef containerRef h0 now) = Returned /\
     has_cleanup i = true /\
     listeners i = [mousemove; mouseleave] /\
     observing i = true /\
     gl_objects i = [BufferObject; ProgramObject; ShaderObject FRAGMENT_SHADER;
                     ShaderObject VERTEX_SHADER] /\
     console i = [] /\
     trail s = [] /\ rafId s = None /\ pending s = [] /\
     Some (canvas_width s) = clientWidth <$> containerRef /\
     Some (canvas_height s) = clientHeight <$> containerRef /\
     trailData s = replicate (TRAIL_MAX * 3) 0 /\
     draw_calls s = 1%nat).
Proof.
  intros i. split; [split|].
  - apply mount_active_ready.
  - intros (canvas & container & gl & -> & -> & Hctx & Hr). subst i.
    rewrite (mount_ready canvas container gl h0 now Hctx Hr). simpl. eauto.
  - intros s Hs.
    destruct (mount_active_ready canvasRef containerRef h0 now)
      as (canvas & container & gl & -> & -> & Hctx & Hr); [by exists s|].
    subst i. rewrite (mount_ready canvas container gl h0 now Hctx Hr) in *.
    simpl in Hs. inversion Hs; subst s. simpl. repeat split; reflexivity.
Qed.

Lemma mount_sets_up_witness :
  let gl := mkGLContext (fun _ => true) (fun _ => true) (fun _ => EmptyString)
                        true true EmptyString in
  let i := snd (mount (Some (mkCanvas (Some gl))) (Some (mkContainer 800 600)) 1 0) in
  listeners i = [mousemove; mouseleave] /\
  (canvas_width <$> active i) = Some 800%Z.
Proof.
  intros gl i.
  destruct (mount_sets_up (Some (mkCanvas (Some gl))) (Some (mkContainer 800 600)) 1 0)
    as [_ H].
  destruct (H (init_state 1 800 600 0) eq_refl) as (_ & _ & Hl & _).
  split; [exact Hl | reflexivity].
Defined.

(** X2.  The effect throws only when both elements and a context exist and
    some set-up call fails.  It has then registered no listener and no
    observer and returned no cleanup, so unmounting does nothing; and the
    shaders compiled before the failure are still alive: the vertex shader
    when the fragment shader fails, both when linking fails.  Neither a
    program nor a buffer is left.  The error is that of the first step that
    fails, in the order vertex shader, fragment shader, program: a failed
    creation is reported as such, a failed compilation with the info log of
    that shader, a failed link with the info log of the program. *)
Theorem mount_throws (canvasRef : option Canvas) (containerRef : option Container)
                     (h0 : nat) (now : Q) (message : string) :
  fst (mount canvasRef containerRef h0 now) = Threw message ->
  let i := snd (mount canvasRef containerRef h0 now) in
  active i = None /\ has_cleanup i = false /\
  listeners i = [] /\ observing i = false /\ console i = [] /\
  unmount i = i /\
  exists canvas container gl,
    canvasRef = Some canvas /\ containerRef = Some container /\
    getContext canvas = Some gl /\ gl_ready gl = false /\
    gl_objects i =
      (if createShader gl VERTEX_SHADER && COMPILE_STATUS gl VERTEX_SHADER
       then if createShader gl FRAGMENT_SHADER && COMPILE_STATUS gl FRAGMENT_SHADER
            then [ShaderObject FRAGMENT_SHADER; ShaderObject VERTEX_SHADER]
            else [ShaderObject VERTEX_SHADER]
       else []) /\
    message =
      (if negb (createShader gl VERTEX_SHADER)
       then "Failed to create WebGL shader"
       else if negb (COMPILE_STATUS gl VERTEX_SHADER)
       then "Shader compile error:" ++ newline ++ getShaderInfoLog gl VERTEX_SHADER
       else if negb (createShader gl FRAGMENT_SHADER)
       then "Failed to create WebGL shader"
       else if negb (COMPILE_STATUS gl FRAGMENT_SHADER)
       then "Shader compile error:" ++ newline ++ getShaderInfoLog gl FRAGMENT_SHADER
       else if negb (createProgram gl)
       then "Failed to create WebGL program"
       else "Program link error:" ++ newline ++ getProgramInfoLog gl)%string.
Proof.
  unfold mount, gl_ready, compileShader, linkProgram.
  destruct canvasRef as [canvas|]; [|done].
  destruct containerRef as [container|]; [|done].
  destruct (getContext canvas) as [gl|] eqn:Hctx; [|done].
  destruct (createShader gl VERTEX_SHADER) eqn:E1;
    destruct (COMPILE_STATUS gl VERTEX_SHADER) eqn:E2;
    destruct (createShader gl FRAGMENT_SHADER) eqn:E3;
    destruct (COMPILE_STATUS gl FRAGMENT_SHADER) eqn:E4;
    destruct (createProgram gl) eqn:E5;
    destruct (LINK_STATUS gl) eqn:E6; simpl; try done;
    intros [= <-]; repeat (split; [reflexivity|]);
    exists canvas, container, gl; rewrite ?E1, ?E2, ?E3, ?E4, ?E5, ?E6;
    repeat (split; [done|]); reflexivity.
Qed.

(** The vertex shader compiles, the fragment shader does not: the error
    carries the log of the fragment shader and the vertex shader stays. *)
Lemma mount_throws_witness :
  let gl := mkGLContext (fun _ => true)
                        (fun ty => match ty with
                                   | VERTEX_SHADER => true
                                   | FRAGMENT_SHADER => false
                                   end)
                        (fun ty => match ty with
                                   | VERTEX_SHADER => "vertex log"%string
                                   | FRAGMENT_SHADER => "fragment log"%string
                                   end) true true "program log"%string in
  let m := mount (Some (mkCanvas (Some gl))) (Some (mkContainer 800 600)) 1 0 in
  fst m = Threw ("Shader compile error:" ++ newline ++ "fragment log")%string /\
  gl_objects (snd m) = [ShaderObject VERTEX_SHADER] /\ unmount (snd m) = snd m.
Proof.
  intros gl m.
  destruct (mount_throws (Some (mkCanvas (Some gl))) (Some (mkContainer 800 600)) 1 0
              ("Shader compile error:" ++ newline ++ "fragment log")%string eq_refl)
    as (_ & _ & _ & _ & _ & Hu & canvas & container & gl' & Hc & _ & Hctx & _ & Hobj & Hmsg).
  inversion Hc; subst canvas. simpl in Hctx. inversion Hctx; subst gl'.
  split; [reflexivity|]. split; [exact Hobj | exact Hu].
Defined.

Lemma animationFrame_idle (now : Q) (s : State) :
  pending s = [] -> animationFrame now s = s.
Proof.
  intros H. unfold animationFrame. rewrite H. simpl.
  destruct s. simpl in H. subst. reflexivity.
Qed.

(** The closure the cleanup leaves has nothing pending. *)
Lemma cancel_pending (s : State) :
  Inv s ->
  pending (match rafId s with
           | Some h => cancelAnimationFrame h s
           | None => s
           end) = [].
Proof.
  intros HI. pose proof (inv_handle s HI) as Hh.
  destruct (rafId s) as [h|]; simpl in *; rewrite Hh; [|done].
  rewrite filter_cons_False by (intros Hne; by apply Hne). done.
Qed.

Lemma deliver_fields (ev : Event) (i : Instance) :
  has_cleanup (deliver ev i) = has_cleanup i /\
  listeners (deliver ev i) = listeners i /\
  observing (deliver ev i) = observing i /\
  gl_objects (deliver ev i) = gl_objects i /\
  console (deliver ev i) = console i /\
  (is_Some (active (deliver ev i)) <-> is_Some (active i)).
Proof.
  unfold deliver. destruct (active i) as [s|] eqn:E; [|by rewrite E].
  cbv zeta.
  match goal with
  | |- context [if ?b then _ else _] => destruct b
  end; simpl; rewrite ?E; repeat split; eauto.
Qed.

Lemma deliver_all_fields (evs : list Event) :
  forall i : Instance,
    has_cleanup (deliver_all evs i) = has_cleanup i /\
    listeners (deliver_all evs i) = listeners i /\
    observing (deliver_all evs i) = observing i /\
    gl_objects (deliver_all evs i) = gl_objects i /\
    console (deliver_all evs i) = console i /\
    (is_Some (active (deliver_all evs i)) <-> is_Some (active i)).
Proof.
  unfold deliver_all. induction evs as [|ev evs IH]; intros i; [done|].
  simpl. destruct (IH (deliver ev i)) as (-> & -> & -> & -> & -> & ->).
  apply deliver_fields.
Qed.

(** An instance with a closure has a cleanup. *)
Lemma mount_has_cleanup (canvasRef : option Canvas) (containerRef : option Container)
                        (h0 : nat) (now : Q) :
  is_Some (active (snd (mount canvasRef containerRef h0 now))) ->
  has_cleanup (snd (mount canvasRef containerRef h0 now)) = true.
Proof.
  intros H. apply mount_active_ready in H as (canvas & container & gl & -> & -> & Hc & Hr).
  by rewrite (mount_ready canvas container gl h0 now Hc Hr).
Qed.

Lemma unmount_inert (i : Instance) :
  (forall s, active i = Some s -> Inv s) ->
  (is_Some (active i) -> has_cleanup i = true) ->
  (forall ev : Event, deliver ev (unmount i) = unmount i) /\
  unmount (unmount i) = unmount i.
Proof.
  intros HI Hc.
  destruct (has_cleanup i) eqn:Ec; destruct (active i) as [s|] eqn:Ea.
  - assert (pending (match rafId s with
                     | Some h => cancelAnimationFrame h s
                     | None => s
                     end) = []) as Hp by (by apply cancel_pending, HI).
    assert (unmount i =
            mkInstance
              (Some (match rafId s with
                     | Some h => cancelAnimationFrame h s
                     | None => s
                     end)) false
              (filter (fun n => n ≠ mouseleave)
                      (filter (fun n => n ≠ mousemove) (listeners i)))
              false
              (remove_object BufferObject
                 (remove_object (ShaderObject FRAGMENT_SHADER)
                    (remove_object (ShaderObject VERTEX_SHADER)
                       (remove_object ProgramObject (gl_objects i)))))
              (console i)) as ->.
    { unfold unmount. by rewrite Ec, Ea. }
    split; [|reflexivity].
    intros ev. unfold deliver. cbn [active listeners observing].
    destruct ev as [e rect now| |w h now|now]; cbv zeta.
    + rewrite bool_decide_eq_false_2; [done|].
      intros H. apply list_elem_of_filter in H as [_ H].
      by apply list_elem_of_filter in H as [H _].
    + rewrite bool_decide_eq_false_2; [done|].
      intros H. by apply list_elem_of_filter in H as [H _].
    + done.
    + simpl. by rewrite animationFrame_idle.
  - assert (unmount i = i) as -> by (unfold unmount; by rewrite Ec, Ea).
    split; [|unfold unmount; by rewrite Ec, Ea].
    intros ev. unfold deliver. by rewrite Ea.
  - assert (false = true) as Habs by (apply Hc; eauto). done.
  - assert (unmount i = i) as -> by (unfold unmount; by rewrite Ec).
    split; [|unfold unmount; by rewrite Ec].
    intros ev. unfold deliver. by rewrite Ea.
Qed.

(** X4.  Once unmounted an instance is inert: no later pointer event,
    resize or frame changes anything (the listeners and the observer are
    gone and no callback is pending), and unmounting again does nothing.
    This holds whatever happened at mount time and before the unmount. *)
Theorem unmounted_is_inert (canvasRef : option Canvas) (containerRef : option Container)
                           (h0 : nat) (now : Q) (before after : list Event) :
  let j := unmount (deliver_all before (snd (mount canvasRef containerRef h0 now))) in
  deliver_all after j = j /\ unmount j = j.
Proof.
  intros j.
  set (i0 := snd (mount canvasRef containerRef h0 now)) in *.
  set (i := deliver_all before i0) in *.
  assert (forall s, active i = Some s -> Inv s) as HI.
  { apply deliver_all_Inv. intros s. apply mount_Inv. }
  assert (is_Some (active i) -> has_cleanup i = true) as Hc.
  { unfold i. destruct (deliver_all_fields before i0) as (-> & _ & _ & _ & _ & ->).
    apply mount_has_cleanup. }
  destruct (unmount_inert i HI Hc) as [Hev Hu]. split; [|exact Hu].
  subst j. unfold deliver_all. induction after as [|ev evs IH]; [done|].
  simpl. by rewrite Hev.
Qed.

Lemma mount_returned (canvasRef : option Canvas) (containerRef : option Container)
                     (h0 : nat) (now : Q) :
  fst (mount canvasRef containerRef h0 now) = Returned ->
  (exists warnings, snd (mount canvasRef containerRef h0 now) = inert warnings) \/
  (exists canvas container gl,
     canvasRef = Some canvas /\ containerRef = Some container /\
     getContext canvas = Some gl /\ gl_ready gl = true).
Proof.
  intros H.
  destruct (active (snd (mount canvasRef containerRef h0 now))) as [s|] eqn:E.
  - right. apply (mount_active_ready canvasRef containerRef h0 now). by rewrite E.
  - left. revert H E. unfold mount, compileShader, linkProgram.
    destruct canvasRef as [canvas|]; [|by eauto].
    destruct containerRef as [container|]; [|by eauto].
    destruct (getContext canvas) as [gl|]; [|by eauto].
    destruct (createShader gl VERTEX_SHADER), (COMPILE_STATUS gl VERTEX_SHADER),
      (createShader gl FRAGMENT_SHADER), (COMPILE_STATUS gl FRAGMENT_SHADER),
      (createProgram gl), (LINK_STATUS gl); simpl; done.
Qed.

(** X3.  When the effect returned normally, unmounting after any sequence
    of events releases everything it holds: no listener is left on the
    container, the resize observer is disconnected, the program, the shaders
    and the buffer are deleted, and no animation-frame callback is pending.
    The trail itself is not touched. *)
Theorem unmount_releases (canvasRef : option Canvas) (containerRef : option Container)
                         (h0 : nat) (now : Q) (evs : list Event) :
  fst (mount canvasRef containerRef h0 now) = Returned ->
  let i := deliver_all evs (snd (mount canvasRef containerRef h0 now)) in
  let j := unmount i in
  has_cleanup j = false /\ listeners j = [] /\ observing j = false /\
  gl_objects j = [] /\
  (forall s : State,
     active i = Some s ->
     exists s' : State,
       active j = Some s' /\ pending s' = [] /\
       trail s' = trail s /\ trailData s' = trailData s) /\
  (active i = None -> active j = None).
Proof.
  intros Hret i j.
  destruct (deliver_all_fields evs (snd (mount canvasRef containerRef h0 now)))
    as (Hc & Hl & Ho & Hg & _ & Ha).
  fold i in Hc, Hl, Ho, Hg, Ha.
  assert (forall s, active i = Some s -> Inv s) as HI.
  { apply deliver_all_Inv. intros s. apply mount_Inv. }
  destruct (mount_returned canvasRef containerRef h0 now Hret)
    as [[warnings Hw]|(canvas & container & gl & -> & -> & Hctx & Hr)].
  - rewrite Hw in Hc, Hl, Ho, Hg, Ha. simpl in *.
    assert (active i = None) as Hn.
    { destruct (active i) eqn:E; [|done]. destruct (proj1 Ha) as [? ?]; [eauto|done]. }
    subst j. unfold unmount. rewrite Hc. repeat split; try done.
    intros s Hs. congruence.
  - rewrite (mount_ready canvas container gl h0 now Hctx Hr) in Hc, Hl, Ho, Hg, Ha.
    simpl in *.
    destruct (active i) as [s|] eqn:E; [|destruct (proj2 Ha) as [? ?]; [eauto|done]].
    subst j. unfold unmount. rewrite Hc, E, Hl, Hg. simpl.
    repeat split; try done.
    intros s0 [= <-]. eexists. split; [reflexivity|]. split.
    + by apply cancel_pending, HI.
    + by destruct (rafId s).
Qed.

Lemma unmount_releases_witness :
  let gl := mkGLContext (fun _ => true) (fun _ => true) (fun _ => EmptyString)
                        true true EmptyString in
  let evs := [MouseMove (mkMouseEvent 0 100) (mkDOMRect 0 0 100 100) 0] in
  let j := unmount (deliver_all evs
             (snd (mount (Some (mkCanvas (Some gl))) (Some (mkContainer 100 100)) 1 0))) in
  listeners j = [] /\ gl_objects j = [].
Proof.
  intros gl evs j.
  destruct (unmount_releases (Some (mkCanvas (Some gl))) (Some (mkContainer 100 100))
                             1 0 evs eq_refl)
    as (_ & Hl & _ & Hg & _).
  split; [exact Hl | exact Hg].
Defined.

(** ** Drawing *)

Lemma draw_calls_tick (now : Q) (s : State) :
  draw_calls (tick now s) = S (draw_calls s).
Proof.
  unfold tick, draw_calls. simpl.
  by destruct (expire (now - TRAIL_DURATION) (trail s)).
Qed.

Lemma draw_calls_startLoop (s : State) : draw_calls (startLoop s) = draw_calls s.
Proof. unfold startLoop, draw_calls. by destruct (rafId s). Qed.

Lemma draw_calls_record (px py now : Q) (s : State) :
  draw_calls (record px py now s) = draw_calls s.
Proof.
  destruct (accepts_dec px py (trail s)) as [H|H].
  - rewrite record_accepted by done. by rewrite draw_calls_startLoop.
  - by rewrite record_rejected.
Qed.

Lemma draw_calls_frames (now : Q) (callbacks : list nat) :
  forall s : State,
    draw_calls (fold_left (fun s' _ => tick now s') callbacks s) =
      (draw_calls s + length callbacks)%nat.
Proof.
  induction callbacks as [|h l IH]; intros s; simpl; [lia|].
  rewrite IH, draw_calls_tick. lia.
Qed.

Lemma draw_calls_step (ev : Event) (s : State) :
  draw_calls (step ev s) =
    (draw_calls s +
     match ev with
     | MouseMove _ _ _ | MouseLeave => 0
     | Resize _ _ _ => 1
     | Frame _ => length (pending s)
     end)%nat.
Proof.
  destruct ev as [e rect now| |w h now|now]; simpl.
  - unfold onMouseMove. rewrite draw_calls_record. lia.
  - unfold onMouseLeave. rewrite draw_calls_startLoop. lia.
  - unfold draw_calls. simpl. lia.
  - unfold animationFrame. by rewrite draw_calls_frames.
Qed.

Lemma draw_calls_run (evs : list Event) :
  forall s : State,
    Inv s ->
    (draw_calls (run evs s) <= draw_calls s + length (List.filter passive evs))%nat.
Proof.
  unfold run. induction evs as [|ev evs IH]; intros s HI; simpl; [lia|].
  assert (length (pending s) <= 1)%nat as Hone.
  { rewrite (inv_handle s HI). destruct (rafId s); simpl; lia. }
  pose proof (draw_calls_step ev s) as Hstep.
  pose proof (IH (step ev s) (Inv_step ev s HI)) as Hrest.
  destruct ev as [e rect now| |w' h' now|now];
    cbn [List.filter passive length]; cbv beta iota in Hstep; lia.
Qed.

(** X5.  Drawing happens only in frames and resizes: a pointer move or a
    pointer leave makes no WebGL call, a resize makes exactly one draw call,
    and a frame makes one when a callback is pending and none otherwise.  In
    a run of events the number of draw calls is at most one (the first
    render) plus the number of resizes and frames. *)
Theorem draws_only_in_frames (evs : list Event) (h0 : nat) (w h : Z) (now0 : Q) :
  let s := run evs (init_state h0 w h now0) in
  (forall (e : MouseEvent) (rect : DOMRect) (now : Q),
     gl_calls (step (MouseMove e rect now) s) = gl_calls s) /\
  gl_calls (step MouseLeave s) = gl_calls s /\
  (forall (w' h' : Z) (now : Q),
     draw_calls (step (Resize w' h' now) s) = S (draw_calls s)) /\
  (forall now : Q,
     draw_calls (step (Frame now) s) =
       (draw_calls s + match rafId s with Some _ => 1 | None => 0 end)%nat) /\
  (draw_calls s <= 1 + length (List.filter passive evs))%nat.
Proof.
  intros s. split; [|split; [|split; [|split]]].
  - intros e rect now. simpl. unfold onMouseMove.
    destruct (accepts_dec (pointer_x e rect s) (pointer_y e rect s) (trail s)) as [H|H].
    + rewrite record_accepted by done. unfold startLoop. simpl. by destruct (rafId s).
    + by rewrite record_rejected.
  - simpl. unfold onMouseLeave, startLoop. by destruct (rafId s).
  - intros w' h' now. rewrite draw_calls_step. lia.
  - intros now. rewrite draw_calls_step.
    rewrite (inv_handle s) by apply Inv_run, Inv_init.
    by destruct (rafId s).
  - apply (draw_calls_run evs (init_state h0 w h now0)), Inv_init.
Qed.

(** ** Recency order and expiry *)

Lemma time_ordered_head (p : TrailPoint) (tr : list TrailPoint) :
  time_ordered (p :: tr) -> forall q, q ∈ tr -> t q <= t p.
Proof.
  revert p. induction tr as [|a tr IH]; intros p [Hhd Htl] q Hq.
  - by apply elem_of_nil in Hq.
  - apply elem_of_cons in Hq as [->|Hq]; [done|].
    eapply Qle_trans; [|exact Hhd]. by apply IH.
Qed.

Lemma time_ordered_lookup (tr : list TrailPoint) :
  time_ordered tr ->
  forall (i j : nat) (p q : TrailPoint),
    (i <= j)%nat -> tr !! i = Some p -> tr !! j = Some q -> t q <= t p.
Proof.
  induction tr as [|a tr IH]; intros Ho i j p q Hij Hp Hq; [done|].
  destruct i as [|i]; simpl in Hp.
  - inversion Hp; subst a. destruct j as [|j]; simpl in Hq.
    + inversion Hq; subst. apply Qle_refl.
    + apply (time_ordered_head p tr Ho). by eapply list_elem_of_lookup_2.
  - destruct j as [|j]; [lia|]. simpl in Hq.
    destruct Ho as [_ Ho]. apply (IH Ho i j); [lia|done|done].
Qed.

(** An older point has no more influence than a newer one. *)
Lemma influence_older (now : Q) (p q : TrailPoint) :
  t q <= t p -> influence now q <= influence now p.
Proof.
  intros H. unfold influence. apply Q.max_le_compat_l.
  unfold TRAIL_DURATION, Qdiv.
  assert ((now - t p) * / 500 <= (now - t q) * / 500) as Hd.
  { apply Qmult_le_compat_r; [Lqa.lra | done]. }
  Lqa.lra.
Qed.

(** X6.  As long as the clock does not go back, the trail is in recency
    order in every run: a point never comes before a newer one.  So in the
    uniform buffer the influences do not increase from slot to slot: the
    head of the trail is the brightest sample. *)
Theorem trail_recency_order (evs : list Event) (h0 : nat) (w h : Z) (now0 : Q) :
  clock_monotone now0 evs ->
  let s := run evs (init_state h0 w h now0) in
  time_ordered (trail s) /\
  (forall (i j : nat) (p q : TrailPoint),
     (i <= j)%nat -> trail s !! i = Some p -> trail s !! j = Some q ->
     t q <= t p /\
     forall now : Q,
       Qmax 0 (1 - (now - t q) / TRAIL_DURATION) <=
       Qmax 0 (1 - (now - t p) / TRAIL_DURATION)).
Proof.
  intros Hc s.
  assert (time_ordered (trail s)) as Ho.
  { apply (timely_run evs now0); [done|]. by split. }
  split; [done|]. intros i j p q Hij Hp Hq.
  assert (t q <= t p) as Ht by (by apply (time_ordered_lookup (trail s) Ho i j)).
  split; [done|]. intros now. by apply (influence_older now p q).
Qed.

Lemma trail_recency_order_witness :
  let r := mkDOMRect 0 0 100 100 in
  let evs := [MouseMove (mkMouseEvent 0 100) r 0;
              MouseMove (mkMouseEvent 10 100) r 10] in
  time_ordered (trail (run evs (init_state 1 100 100 0))).
Proof.
  intros r evs.
  refine (proj1 (trail_recency_order evs 1 100 100 0 _)).
  vm_compute. repeat split; discriminate.
Defined.

(** On a trail in recency order the expiry loop keeps exactly the points
    that have not passed the cutoff. *)
Lemma expire_filter (cutoff : Q) (tr : list TrailPoint) :
  time_ordered tr ->
  expire cutoff tr = List.filter (fun p => Qle_bool cutoff (t p)) tr.
Proof.
  induction tr as [|p l IH] using rev_ind; intros Ho; [done|].
  apply time_ordered_snoc in Ho as [Hl Hall].
  rewrite expire_snoc, List.filter_app. simpl.
  destruct (Qlt_bool (t p) cutoff) eqn:E.
  - apply Qlt_bool_iff in E.
    destruct (Qle_bool cutoff (t p)) eqn:E'.
    + apply Qle_bool_iff in E'. exfalso. exact (Qlt_not_le _ _ E E').
    + rewrite app_nil_r. by apply IH.
  - apply Qlt_bool_false_iff in E.
    assert (Qle_bool cutoff (t p) = true) as -> by (by apply Qle_bool_iff).
    f_equal. symmetry. apply forallb_filter_id. apply forallb_forall.
    intros q Hq. apply Qle_bool_iff. eapply Qle_trans; [exact E|].
    apply Hall. by apply list_elem_of_In.
Qed.

(** X7.  In a run whose clock does not go back, a frame at time [now]
    keeps exactly the points of age at most [TRAIL_DURATION] and drops all
    the others, wherever they are in the trail. *)
Theorem frame_keeps_recent_points (evs : list Event) (h0 : nat) (w h : Z)
                                  (now0 now : Q) :
  clock_monotone now0 evs ->
  let s := run evs (init_state h0 w h now0) in
  trail (step (Frame now) s) =
    List.filter (fun p => Qle_bool (now - t p) TRAIL_DURATION) (trail s) /\
  (forall p : TrailPoint,
     p ∈ trail (step (Frame now) s) -> now - t p <= TRAIL_DURATION).
Proof.
  intros Hc s.
  assert (time_ordered (trail s)) as Ho.
  { apply (timely_run evs now0); [done|]. by split. }
  assert (Inv s) as HI by apply Inv_run, Inv_init.
  split; [|intros p; by apply frame_drops_older].
  assert (List.filter (fun p => Qle_bool (now - t p) TRAIL_DURATION) (trail s) =
          List.filter (fun p => Qle_bool (now - TRAIL_DURATION) (t p)) (trail s)) as ->.
  { apply List.filter_ext. intros p.
    destruct (Qle_bool (now - t p) TRAIL_DURATION) eqn:E1;
      destruct (Qle_bool (now - TRAIL_DURATION) (t p)) eqn:E2; try done.
    - apply Qle_bool_iff in E1.
      assert (Qle_bool (now - TRAIL_DURATION) (t p) = true) as E3
        by (apply Qle_bool_iff; Lqa.lra).
      congruence.
    - apply Qle_bool_iff in E2.
      assert (Qle_bool (now - t p) TRAIL_DURATION = true) as E3
        by (apply Qle_bool_iff; Lqa.lra).
      congruence. }
  rewrite <- expire_filter by done.
  simpl. unfold animationFrame. rewrite (inv_handle s HI).
  destruct (rafId s) as [c|] eqn:E; simpl.
  - by rewrite tick_trail.
  - destruct (trail s) as [|q tr] eqn:Et; [done|].
    exfalso. apply (inv_running s HI); [by rewrite Et | done].
Qed.

Lemma frame_keeps_recent_points_witness :
  let r := mkDOMRect 0 0 100 100 in
  let evs := [MouseMove (mkMouseEvent 0 100) r 0;
              MouseMove (mkMouseEvent 10 100) r 400] in
  map t (trail (step (Frame 600) (run evs (init_state 1 100 100 0)))) = [400].
Proof.
  intros r evs.
  assert (clock_monotone 0 evs) as Hc by (vm_compute; repeat split; discriminate).
  rewrite (proj1 (frame_keeps_recent_points evs 1 100 100 0 600 Hc)).
  reflexivity.
Defined.

(** X8.  Whenever the trail is not empty a frame callback is pending, in
    every run: a recorded point always gets the frames that fade it out. *)
Theorem loop_runs_while_trail (evs : list Event) (h0 : nat) (w h : Z) (now0 : Q) :
  let s := run evs (init_state h0 w h now0) in
  trail s <> [] -> exists c : nat, rafId s = Some c /\ pending s = [c].
Proof.
  intros s Hne.
  assert (Inv s) as HI by apply Inv_run, Inv_init.
  pose proof (inv_running s HI Hne) as Hr. pose proof (inv_handle s HI) as Hh.
  destruct (rafId s) as [c|]; [|done]. by exists c.
Qed.

Lemma loop_runs_while_trail_witness :
  let evs := [MouseMove (mkMouseEvent 0 100) (mkDOMRect 0 0 100 100) 0; Frame 16] in
  exists c : nat, pending (run evs (init_state 1 100 100 0)) = [c].
Proof.
  intros evs.
  destruct (loop_runs_while_trail evs 1 100 100 0) as (c & _ & Hc).
  - vm_compute. discriminate.
  - exists c. exact Hc.
Defined.

Lemma expire_all (cutoff : Q) (tr : list TrailPoint) :
  (forall p, p ∈ tr -> t p < cutoff) -> expire cutoff tr = [].
Proof.
  induction tr as [|p l IH] using rev_ind; intros Hall; [done|].
  rewrite expire_snoc.
  assert (Qlt_bool (t p) cutoff = true) as ->.
  { apply Qlt_bool_iff, Hall, elem_of_app. right. left. }
  apply IH. intros q Hq. apply Hall, elem_of_app. by left.
Qed.

(** X9.  A tick that finds every point older than [TRAIL_DURATION] ends
    the fade: the trail is emptied, the whole uniform buffer is zero, the
    handle is null and no new frame is requested. *)
Theorem tick_ends_fade (now : Q) (s : State) :
  (forall p : TrailPoint, p ∈ trail s -> TRAIL_DURATION < now - t p) ->
  trail (tick now s) = [] /\
  trailData (tick now s) = replicate (length (trailData s)) 0 /\
  rafId (tick now s) = None /\
  pending (tick now s) = pending s.
Proof.
  intros Hall.
  assert (expire (now - TRAIL_DURATION) (trail s) = []) as He.
  { apply expire_all. intros p Hp. specialize (Hall p Hp). Lqa.lra. }
  pose proof (tick_schedule now s) as Hs.
  rewrite tick_trail, He in Hs. destruct Hs as [Hr Hp].
  split; [by rewrite tick_trail|]. split; [|done].
  by rewrite tick_trailData, He.
Qed.

Lemma tick_ends_fade_witness :
  let s := take_callbacks
             (run [MouseMove (mkMouseEvent 0 100) (mkDOMRect 0 0 100 100) 0]
                  (init_state 1 100 100 0)) in
  trail (tick 501 s) = [] /\ rafId (tick 501 s) = None.
Proof.
  intros s.
  destruct (tick_ends_fade 501 s) as (Ht & _ & Hr & _).
  - intros p Hp. apply list_elem_of_singleton in Hp. subst p.
    vm_compute. reflexivity.
  - split; [exact Ht | exact Hr].
Defined.

Lemma expire_expire (c1 c2 : Q) (tr : list TrailPoint) :
  c1 <= c2 -> expire c2 (expire c1 tr) = expire c2 tr.
Proof.
  intros Hc. induction tr as [|p l IH] using rev_ind; [done|].
  rewrite (expire_snoc c1). destruct (Qlt_bool (t p) c1) eqn:E; [|done].
  rewrite IH, expire_snoc.
  assert (Qlt_bool (t p) c2 = true) as ->; [|done].
  apply Qlt_bool_iff. apply Qlt_bool_iff in E. Lqa.lra.
Qed.

(** X10.  Expiry composes: a tick at [now1] followed by a tick at a later
    (or the same) time [now2] leaves the trail that a single tick at [now2]
    leaves.  A tick repeated at the same time drops nothing more, and a tick
    never adds or reorders points: what it leaves is an initial segment of
    the trail. *)
Theorem tick_composes (now1 now2 : Q) (s : State) :
  now1 <= now2 ->
  trail (tick now2 (tick now1 s)) = trail (tick now2 s) /\
  trail (tick now1 (tick now1 s)) = trail (tick now1 s) /\
  exists k : nat, trail (tick now1 s) = take k (trail s).
Proof.
  intros H. rewrite !tick_trail. split; [|split].
  - apply expire_expire. Lqa.lra.
  - apply expire_expire. apply Qle_refl.
  - destruct (expire_prefix (now1 - TRAIL_DURATION) (trail s)) as (k & _ & Hk).
    by exists k.
Qed.

Lemma tick_composes_witness :
  let s := run [MouseMove (mkMouseEvent 0 100) (mkDOMRect 0 0 100 100) 0]
               (init_state 1 100 100 0) in
  trail (tick 700 (tick 300 s)) = trail (tick 700 s).
Proof.
  intros s. refine (proj1 (tick_composes 300 700 s _)).
  vm_compute. discriminate.
Defined.

(** ** Pointer coordinates *)

(** X11.  [onMouseMove] maps the pointer into surface pixels with the Y
    axis flipped.  For a container rectangle of positive size and a pointer
    inside it, the point lies on the canvas; the left edge of the rectangle
    goes to [x = 0] and the right edge to [x = canvas.width], the top edge
    to [y = canvas.height] and the bottom edge to [y = 0]. *)
Theorem pointer_on_canvas (e : MouseEvent) (rect : DOMRect) (s : State) :
  0 < rect_width rect -> 0 < rect_height rect ->
  (0 <= canvas_width s)%Z -> (0 <= canvas_height s)%Z ->
  rect_left rect <= clientX e <= rect_left rect + rect_width rect ->
  rect_top rect <= clientY e <= rect_top rect + rect_height rect ->
  0 <= pointer_x e rect s <= inject_Z (canvas_width s) /\
  0 <= pointer_y e rect s <= inject_Z (canvas_height s) /\
  (clientX e == rect_left rect -> pointer_x e rect s == 0) /\
  (clientX e == rect_left rect + rect_width rect ->
   pointer_x e rect s == inject_Z (canvas_width s)) /\
  (clientY e == rect_top rect -> pointer_y e rect s == inject_Z (canvas_height s)) /\
  (clientY e == rect_top rect + rect_height rect -> pointer_y e rect s == 0).
Proof.
  intros Hw Hh Hcw Hch [Hx0 Hx1] [Hy0 Hy1].
  unfold pointer_x, pointer_y. cbv zeta.
  set (cw := inject_Z (canvas_width s)). set (ch := inject_Z (canvas_height s)).
  assert (0 <= cw) as Hcw' by (unfold cw; change 0 with (inject_Z 0); by rewrite <- Zle_Qle).
  assert (0 <= ch) as Hch' by (unfold ch; change 0 with (inject_Z 0); by rewrite <- Zle_Qle).
  set (dx := clientX e - rect_left rect). set (dy := clientY e - rect_top rect).
  assert (0 <= dx <= rect_width rect) as [Hdx0 Hdx1] by (unfold dx; split; Lqa.lra).
  assert (0 <= dy <= rect_height rect) as [Hdy0 Hdy1] by (unfold dy; split; Lqa.lra).
  assert (forall d c r : Q, 0 < r -> r * (c / r) == c) as Hfull.
  { intros d c r Hr. field. intros Hz. rewrite Hz in Hr. by apply Qlt_irrefl in Hr. }
  assert (forall d c r : Q, 0 < r -> 0 <= c -> 0 <= d <= r ->
                            0 <= d * (c / r) <= c) as Hin.
  { intros d c r Hr Hc [Hd0 Hd1].
    assert (0 <= c / r) as Hs.
    { unfold Qdiv. apply Qmult_le_0_compat; [done|]. by apply Qlt_le_weak, Qinv_lt_0_compat. }
    split; [by apply Qmult_le_0_compat|].
    rewrite <- (Hfull d c r Hr) at 2. by apply Qmult_le_compat_r. }
  destruct (Hin dx cw (rect_width rect) Hw Hcw' (conj Hdx0 Hdx1)) as [Ha Hb].
  destruct (Hin dy ch (rect_height rect) Hh Hch' (conj Hdy0 Hdy1)) as [Hc Hd].
  split; [done|]. split; [split; Lqa.lra|].
  split; [|split; [|split]].
  - intros Heq. assert (dx == 0) as -> by (unfold dx; Lqa.lra). Lqa.lra.
  - intros Heq. assert (dx == rect_width rect) as -> by (unfold dx; Lqa.lra).
    by apply (Hfull 0).
  - intros Heq. assert (dy == 0) as -> by (unfold dy; Lqa.lra). Lqa.lra.
  - intros Heq. assert (dy == rect_height rect) as -> by (unfold dy; Lqa.lra).
    rewrite (Hfull 0 ch (rect_height rect) Hh). Lqa.lra.
Qed.

Lemma pointer_on_canvas_witness :
  let e := mkMouseEvent 210 120 in
  let rect := mkDOMRect 10 20 400 200 in
  let s := init_state 1 800 400 0 in
  pointer_x e rect s == 400 /\ pointer_y e rect s == 200 /\
  0 <= pointer_x e rect s <= inject_Z (canvas_width s).
Proof.
  intros e rect s.
  assert (0 <= pointer_x e rect s <= inject_Z (canvas_width s)) as H.
  { refine (proj1 (pointer_on_canvas e rect s _ _ _ _ _ _));
      try reflexivity; try (vm_compute; discriminate);
      split; vm_compute; discriminate. }
  split; [reflexivity|]. split; [reflexivity | exact H].
Defined.

(** ** The fragment shader *)

Section ShaderExtras.

Local Open Scope R_scope.

Lemma Q2R_0 : Q2R 0 = 0.
Proof. unfold Q2R. simpl. lra. Qed.

Lemma mix_zero : Shader.mix (Shader.vec4_of 0) Shader.COLOR_BORDER_HOVER 0 = Shader.vec4_of 0.
Proof. unfold Shader.mix, Shader.vec4_of. simpl. f_equal; lra. Qed.

Lemma main_glow (fc : Shader.vec2) (u : nat -> Shader.vec3) :
  Shader.main fc u = Shader.vec4_of 0 \/
  Shader.main fc u = Shader.mix (Shader.vec4_of 0) Shader.COLOR_BORDER_HOVER (glow fc u).
Proof.
  rewrite main_cases. fold (glow fc u).
  destruct (Rgt_dec (Shader.sdf fc) 0); [by left|].
  destruct (Rgt_dec (Shader.sdf fc) (- Shader.BORDER_WIDTH)); [by right | by left].
Qed.

Lemma main_dark (fc : Shader.vec2) (u : nat -> Shader.vec3) :
  glow fc u = 0 -> Shader.main fc u = Shader.vec4_of 0.
Proof.
  intros H. destruct (main_glow fc u) as [->| ->]; [done|].
  rewrite H. apply mix_zero.
Qed.

Lemma glow_zero (fc : Shader.vec2) (u : nat -> Shader.vec3) :
  (forall i : nat,
     (i < Shader.TRAIL_MAX)%nat ->
     Shader.v3z (u i) <= 0 \/
     Shader.HOVER_RADIUS <=
       Shader.length (Shader.sub2 (Shader.cell_center fc) (Shader.xy (u i)))) ->
  glow fc u = 0.
Proof.
  intros Hall. unfold glow. apply Rle_antisym; [|apply greatest_nonneg].
  apply greatest_lub; [lra|]. intros a Ha.
  apply elem_of_contributions in Ha as (i & Hi & ->).
  destruct (Hall i Hi) as [Hz|Hd].
  - apply contribution_le; [lra|done].
  - unfold Shader.contribution. rewrite (falloff_far _ Hd). lra.
Qed.

(** X13.  A sample lights a cell only within [HOVER_RADIUS] of its centre:
    if every slot either has no positive influence or lies at least
    [HOVER_RADIUS] away from the centre of the pixel's cell, the pixel is
    fully transparent. *)
Theorem far_samples_draw_nothing (fc : Shader.vec2) (u_trail : nat -> Shader.vec3) :
  (forall i : nat,
     (i < Shader.TRAIL_MAX)%nat ->
     Shader.v3z (u_trail i) <= 0 \/
     Shader.HOVER_RADIUS <=
       Shader.length (Shader.sub2 (Shader.cell_center fc) (Shader.xy (u_trail i)))) ->
  Shader.main fc u_trail = Shader.vec4_of 0.
Proof. intros H. by apply main_dark, glow_zero. Qed.

Lemma far_samples_draw_nothing_witness :
  Shader.main (Shader.mkvec2 5 24) (fun _ => Shader.mkvec3 124 24 1) = Shader.vec4_of 0.
Proof.
  apply far_samples_draw_nothing. intros i _. right.
  rewrite cell_center_sample. unfold Shader.sub2, Shader.xy, Shader.HOVER_RADIUS.
  cbn [Shader.v2x Shader.v2y Shader.v3x Shader.v3y].
  unfold Shader.length. cbn [Shader.v2x Shader.v2y].
  replace ((24 - 124) * (24 - 124) + (24 - 24) * (24 - 24)) with (100 * 100) by lra.
  rewrite sqrt_square by lra. lra.
Defined.

(** X12.  A trail that has faded draws nothing: when every point of the
    trail has reached the age [TRAIL_DURATION] at render time (in
    particular when the trail is empty), the uniform array that [render]
    uploads makes the shader output full transparency at every pixel. *)
Theorem faded_trail_draws_nothing (now : Q) (s : State) :
  length (trailData s) = (TRAIL_MAX * 3)%nat ->
  (forall p : TrailPoint, p ∈ trail s -> (TRAIL_DURATION <= now - t p)%Q) ->
  forall fc : Shader.vec2,
    Shader.main fc (uniform_of (trailData (render now s))) = Shader.vec4_of 0.
Proof.
  intros Hlen Hall fc. apply main_dark, glow_zero. intros i Hi. left.
  unfold uniform_of. rewrite render_trailData.
  rewrite build_trailData_slot
    by (rewrite Hlen; unfold TRAIL_MAX, Shader.TRAIL_MAX in *; lia).
  destruct (trail s !! i) as [p|] eqn:E; cbn [Shader.v3z].
  - rewrite influence_expired; [rewrite Q2R_0; lra|].
    apply Hall. by eapply list_elem_of_lookup_2.
  - rewrite Q2R_0. lra.
Qed.

Lemma faded_trail_draws_nothing_witness :
  let s := run [MouseMove (mkMouseEvent 0 100) (mkDOMRect 0 0 100 100) 0]
               (init_state 1 100 100 0) in
  length (trail s) = 1%nat /\
  Shader.main (Shader.mkvec2 5 24) (uniform_of (trailData (render 500 s))) =
    Shader.vec4_of 0.
Proof.
  intros s. split; [reflexivity|].
  apply (faded_trail_draws_nothing 500 s); [reflexivity|].
  intros p Hp. apply list_elem_of_singleton in Hp. subst p.
  vm_compute. discriminate.
Defined.

(** *** The shape of a cell *)

Lemma floor_bounds (a : R) : Shader.floor a <= a < Shader.floor a + 1.
Proof. unfold Shader.floor. destruct (base_Int_part a). lra. Qed.

Lemma cell_local_bounds (fc : Shader.vec2) :
  -24 <= Shader.v2x (cell_local fc) < 24 /\ -24 <= Shader.v2y (cell_local fc) < 24.
Proof.
  unfold cell_local, Shader.cell_center, Shader.sub2, Shader.GRID_SIZE.
  cbn [Shader.v2x Shader.v2y].
  pose proof (floor_bounds (Shader.v2x fc / 48.0)).
  pose proof (floor_bounds (Shader.v2y fc / 48.0)). lra.
Qed.

Lemma length_ge_x (a b : R) : 0 <= a -> a <= Shader.length (Shader.mkvec2 a b).
Proof.
  intros Ha. unfold Shader.length. cbn [Shader.v2x Shader.v2y].
  rewrite <- (sqrt_square a Ha) at 1. apply sqrt_le_1_alt. nra.
Qed.

Lemma length_ge_y (a b : R) : 0 <= b -> b <= Shader.length (Shader.mkvec2 a b).
Proof.
  intros Hb. unfold Shader.length. cbn [Shader.v2x Shader.v2y].
  rewrite <- (sqrt_square b Hb) at 1. apply sqrt_le_1_alt. nra.
Qed.

Lemma length_axis_y (b : R) : 0 <= b -> Shader.length (Shader.mkvec2 0 b) = b.
Proof.
  intros Hb. unfold Shader.length. simpl.
  replace (0 * 0 + b * b) with (b * b) by lra. by apply sqrt_square.
Qed.

(** The distance function in terms of the offset from the cell centre. *)
Lemma sdf_local (fc : Shader.vec2) :
  Shader.sdf fc =
    Shader.length
      (Shader.mkvec2 (Rmax (Rabs (Shader.v2x (cell_local fc)) - 14) 0)
                     (Rmax (Rabs (Shader.v2y (cell_local fc)) - 14) 0))
    + Rmin (Rmax (Rabs (Shader.v2x (cell_local fc)) - 14)
                 (Rabs (Shader.v2y (cell_local fc)) - 14)) 0
    - 6.
Proof.
  unfold Shader.sdf. fold (cell_local fc). cbv zeta.
  unfold Shader.GRID_SIZE, Shader.GRID_GAP, Shader.CORNER_RADIUS.
  cbn [Shader.v2x Shader.v2y].
  replace (48.0 * 0.5 - 4.0 - 6.0) with 14 by lra.
  replace 6.0 with 6 by lra. reflexivity.
Qed.

Lemma sdf_gap (fc : Shader.vec2) :
  20 < Rabs (Shader.v2x (cell_local fc)) \/ 20 < Rabs (Shader.v2y (cell_local fc)) ->
  Shader.sdf fc > 0.
Proof.
  rewrite sdf_local.
  set (qx := Rabs (Shader.v2x (cell_local fc)) - 14).
  set (qy := Rabs (Shader.v2y (cell_local fc)) - 14).
  intros H.
  assert (0 < Rmax qx qy) as Hm.
  { destruct H; [apply Rlt_le_trans with qx; [unfold qx; lra | apply Rmax_l]
                |apply Rlt_le_trans with qy; [unfold qy; lra | apply Rmax_r]]. }
  rewrite (Rmin_right (Rmax qx qy) 0) by lra.
  destruct H as [H|H].
  - pose proof (length_ge_x (Rmax qx 0) (Rmax qy 0) (Rmax_r _ _)) as Hl.
    pose proof (Rmax_l qx 0). unfold qx in *. lra.
  - pose proof (length_ge_y (Rmax qx 0) (Rmax qy 0) (Rmax_r _ _)) as Hl.
    pose proof (Rmax_l qy 0). unfold qy in *. lra.
Qed.

Lemma sdf_edge_x (fc : Shader.vec2) :
  14 <= Rabs (Shader.v2x (cell_local fc)) ->
  Rabs (Shader.v2y (cell_local fc)) <= 14 ->
  Shader.sdf fc = Rabs (Shader.v2x (cell_local fc)) - 20.
Proof.
  intros Hx Hy. rewrite sdf_local.
  rewrite (Rmax_left (Rabs (Shader.v2x (cell_local fc)) - 14) 0) by lra.
  rewrite (Rmax_right (Rabs (Shader.v2y (cell_local fc)) - 14) 0) by lra.
  rewrite Rmax_left by lra. rewrite Rmin_right by lra.
  rewrite length_axis by lra. lra.
Qed.

Lemma sdf_edge_y (fc : Shader.vec2) :
  Rabs (Shader.v2x (cell_local fc)) <= 14 ->
  14 <= Rabs (Shader.v2y (cell_local fc)) ->
  Shader.sdf fc = Rabs (Shader.v2y (cell_local fc)) - 20.
Proof.
  intros Hx Hy. rewrite sdf_local.
  rewrite (Rmax_right (Rabs (Shader.v2x (cell_local fc)) - 14) 0) by lra.
  rewrite (Rmax_left (Rabs (Shader.v2y (cell_local fc)) - 14) 0) by lra.
  rewrite Rmax_right by lra. rewrite Rmin_right by lra.
  rewrite length_axis_y by lra. lra.
Qed.

Lemma sdf_core (fc : Shader.vec2) :
  Rabs (Shader.v2x (cell_local fc)) <= 14 ->
  Rabs (Shader.v2y (cell_local fc)) <= 14 ->
  Shader.sdf fc <= -6.
Proof.
  intros Hx Hy. rewrite sdf_local.
  rewrite (Rmax_right (Rabs (Shader.v2x (cell_local fc)) - 14) 0) by lra.
  rewrite (Rmax_right (Rabs (Shader.v2y (cell_local fc)) - 14) 0) by lra.
  rewrite length_axis by lra.
  assert (Rmax (Rabs (Shader.v2x (cell_local fc)) - 14)
               (Rabs (Shader.v2y (cell_local fc)) - 14) <= 0) as Hm
    by (apply Rmax_lub; lra).
  rewrite Rmin_left by lra. lra.
Qed.

Lemma main_outside (fc : Shader.vec2) (u : nat -> Shader.vec3) :
  Shader.sdf fc > 0 -> Shader.main fc u = Shader.vec4_of 0.
Proof. intros H. rewrite main_cases. by destruct (Rgt_dec (Shader.sdf fc) 0). Qed.

Lemma main_inside (fc : Shader.vec2) (u : nat -> Shader.vec3) :
  Shader.sdf fc <= -4 -> Shader.main fc u = Shader.vec4_of 0.
Proof.
  intros H. rewrite main_cases.
  destruct (Rgt_dec (Shader.sdf fc) 0); [lra|].
  destruct (Rgt_dec (Shader.sdf fc) (- Shader.BORDER_WIDTH)) as [H1|H1]; [|done].
  unfold Shader.BORDER_WIDTH in H1. lra.
Qed.

Lemma main_ring (fc : Shader.vec2) (u : nat -> Shader.vec3) :
  -4 < Shader.sdf fc <= 0 ->
  Shader.main fc u =
    Shader.mix (Shader.vec4_of 0) Shader.COLOR_BORDER_HOVER (glow fc u).
Proof.
  intros H. rewrite main_cases. fold (glow fc u).
  destruct (Rgt_dec (Shader.sdf fc) 0); [lra|].
  destruct (Rgt_dec (Shader.sdf fc) (- Shader.BORDER_WIDTH)) as [H1|H1]; [done|].
  unfold Shader.BORDER_WIDTH in H1. lra.
Qed.

(** X14.  The geometry of a cell, whatever the trail.  A pixel is at most
    24 px from the centre of its 48-px cell on each axis.  The 4-px margin
    of the cell (offset above 20 on either axis) is transparent, and so is
    the inside up to 16 px from the centre along the straight edges; the
    glow shows on the 4-px band between 16 and 20 px from the centre. *)
Theorem cell_geometry (fc : Shader.vec2) (u_trail : nat -> Shader.vec3) :
  let lx := Shader.v2x (cell_local fc) in
  let ly := Shader.v2y (cell_local fc) in
  (-24 <= lx < 24 /\ -24 <= ly < 24) /\
  (20 < Rabs lx \/ 20 < Rabs ly -> Shader.main fc u_trail = Shader.vec4_of 0) /\
  (Rabs lx <= 16 -> Rabs ly <= 14 -> Shader.main fc u_trail = Shader.vec4_of 0) /\
  (Rabs lx <= 14 -> Rabs ly <= 16 -> Shader.main fc u_trail = Shader.vec4_of 0) /\
  (16 < Rabs lx <= 20 -> Rabs ly <= 14 ->
   Shader.main fc u_trail =
     Shader.mix (Shader.vec4_of 0) Shader.COLOR_BORDER_HOVER (glow fc u_trail)) /\
  (Rabs lx <= 14 -> 16 < Rabs ly <= 20 ->
   Shader.main fc u_trail =
     Shader.mix (Shader.vec4_of 0) Shader.COLOR_BORDER_HOVER (glow fc u_trail)).
Proof.
  intros lx ly. split; [apply cell_local_bounds|].
  split; [|split; [|split; [|split]]].
  - intros H. by apply main_outside, sdf_gap.
  - intros Hx Hy. apply main_inside.
    destruct (Rle_dec 14 (Rabs lx)) as [H|H].
    + rewrite sdf_edge_x by done. fold lx. lra.
    + pose proof (sdf_core fc). fold lx ly in H0. lra.
  - intros Hx Hy. apply main_inside.
    destruct (Rle_dec 14 (Rabs ly)) as [H|H].
    + rewrite sdf_edge_y by done. fold ly. lra.
    + pose proof (sdf_core fc). fold lx ly in H0. lra.
  - intros Hx Hy. apply main_ring. rewrite sdf_edge_x; fold lx; [lra|lra|done].
  - intros Hx Hy. apply main_ring. rewrite sdf_edge_y; fold ly; [lra|done|lra].
Qed.

Lemma cell_geometry_witness :
  Shader.main (Shader.mkvec2 24 24) (fun _ => Shader.mkvec3 24 24 1) = Shader.vec4_of 0.
Proof.
  destruct (cell_geometry (Shader.mkvec2 24 24) (fun _ => Shader.mkvec3 24 24 1))
    as (_ & _ & Hin & _).
  assert (Shader.cell_center (Shader.mkvec2 24 24) = Shader.mkvec2 24 24) as Hc.
  { unfold Shader.cell_center, Shader.GRID_SIZE. simpl.
    rewrite !floor_unit by lra. f_equal; lra. }
  apply Hin; unfold cell_local; rewrite Hc; unfold Shader.sub2; simpl;
    replace (24 - 24) with 0 by lra; rewrite Rabs_R0; lra.
Defined.

(** *** The grid repeats *)

Lemma floor_shift (a : R) (k : Z) : Shader.floor (a + IZR k) = Shader.floor a + IZR k.
Proof.
  unfold Shader.floor. rewrite <- plus_IZR. f_equal. symmetry.
  apply Int_part_spec. rewrite plus_IZR.
  destruct (base_Int_part a). lra.
Qed.

Lemma cell_center_shift (kx ky : Z) (fc : Shader.vec2) :
  Shader.cell_center (shift_cells kx ky fc) = shift_cells kx ky (Shader.cell_center fc).
Proof.
  unfold Shader.cell_center, shift_cells, Shader.GRID_SIZE.
  cbn [Shader.v2x Shader.v2y].
  replace ((Shader.v2x fc + IZR kx * 48.0) / 48.0)
    with (Shader.v2x fc / 48.0 + IZR kx) by lra.
  replace ((Shader.v2y fc + IZR ky * 48.0) / 48.0)
    with (Shader.v2y fc / 48.0 + IZR ky) by lra.
  rewrite !floor_shift. f_equal; lra.
Qed.

Lemma sub2_shift (kx ky : Z) (a b : Shader.vec2) :
  Shader.sub2 (shift_cells kx ky a) (shift_cells kx ky b) = Shader.sub2 a b.
Proof.
  unfold Shader.sub2, shift_cells. cbn [Shader.v2x Shader.v2y]. f_equal; lra.
Qed.

Lemma sdf_shift (kx ky : Z) (fc : Shader.vec2) :
  Shader.sdf (shift_cells kx ky fc) = Shader.sdf fc.
Proof.
  unfold Shader.sdf. by rewrite cell_center_shift, sub2_shift.
Qed.

Lemma glow_shift (kx ky : Z) (fc : Shader.vec2) (u : nat -> Shader.vec3) :
  glow (shift_cells kx ky fc) (fun i => shift_sample kx ky (u i)) = glow fc u.
Proof.
  unfold glow, Shader.contributions. rewrite cell_center_shift.
  apply (f_equal Shader.greatest). apply map_ext. intros i.
  unfold Shader.contribution. cbn [shift_sample Shader.v3z].
  apply (f_equal (Rmult (Shader.v3z (u i)))).
  apply (f_equal Shader.falloff). apply (f_equal Shader.length).
  change (Shader.xy (shift_sample kx ky (u i)))
    with (shift_cells kx ky (Shader.xy (u i))).
  apply sub2_shift.
Qed.

(** X15.  The picture is built from cells: moving a pixel by a whole
    number of cells on either axis puts it at the same place of another
    cell (same offset from the centre, same distance to the cell edge), and
    moving the pixel and all trail samples together by whole cells leaves
    the output colour unchanged. *)
Theorem grid_repeats (kx ky : Z) (fc : Shader.vec2) (u_trail : nat -> Shader.vec3) :
  Shader.cell_center (shift_cells kx ky fc) = shift_cells kx ky (Shader.cell_center fc) /\
  cell_local (shift_cells kx ky fc) = cell_local fc /\
  Shader.sdf (shift_cells kx ky fc) = Shader.sdf fc /\
  Shader.main (shift_cells kx ky fc) (fun i => shift_sample kx ky (u_trail i)) =
    Shader.main fc u_trail.
Proof.
  split; [apply cell_center_shift|]. split; [|split; [apply sdf_shift|]].
  - unfold cell_local. by rewrite cell_center_shift, sub2_shift.
  - rewrite !main_cases, sdf_shift.
    fold (glow (shift_cells kx ky fc) (fun i => shift_sample kx ky (u_trail i))).
    fold (glow fc u_trail). by rewrite glow_shift.
Qed.

(** *** The output colour *)

Lemma glow_le (fc : Shader.vec2) (u : nat -> Shader.vec3) (M : R) :
  0 <= M ->
  (forall i : nat, (i < Shader.TRAIL_MAX)%nat -> Shader.v3z (u i) <= M) ->
  glow fc u <= M.
Proof.
  intros HM Hall. unfold glow. apply greatest_lub; [done|].
  intros a Ha. apply elem_of_contributions in Ha as (i & Hi & ->).
  apply contribution_le; [done|]. by apply Hall.
Qed.

(** X16.  The output is always the highlight colour scaled by its own
    alpha: red, green and blue are 0.557, 0.196 and 0.004 times the alpha,
    which is never negative; and when no slot holds an influence above 1,
    as is the case for what [render] writes, the alpha is at most 1. *)
Theorem output_is_scaled_highlight (fc : Shader.vec2) (u_trail : nat -> Shader.vec3) :
  let out := Shader.main fc u_trail in
  Shader.v4x out = 0.557 * Shader.v4w out /\
  Shader.v4y out = 0.196 * Shader.v4w out /\
  Shader.v4z out = 0.004 * Shader.v4w out /\
  0 <= Shader.v4w out /\
  Shader.v4w out <= glow fc u_trail /\
  ((forall i : nat, (i < Shader.TRAIL_MAX)%nat -> Shader.v3z (u_trail i) <= 1) ->
   Shader.v4w out <= 1).
Proof.
  intros out. pose proof (greatest_nonneg (Shader.contributions (Shader.cell_center fc) u_trail)) as Hg.
  fold (glow fc u_trail) in Hg.
  assert (Shader.v4x out = 0.557 * Shader.v4w out /\
          Shader.v4y out = 0.196 * Shader.v4w out /\
          Shader.v4z out = 0.004 * Shader.v4w out /\
          0 <= Shader.v4w out /\ Shader.v4w out <= glow fc u_trail) as H.
  { subst out. destruct (main_glow fc u_trail) as [-> | ->];
      unfold Shader.mix, Shader.vec4_of, Shader.COLOR_BORDER_HOVER;
      cbn [Shader.v4x Shader.v4y Shader.v4z Shader.v4w]; repeat split; lra. }
  destruct H as (H1 & H2 & H3 & H4 & H5). repeat (split; [done|]).
  intros Hall. apply Rle_trans with (glow fc u_trail); [done|].
  apply glow_le; [lra|done].
Qed.

Lemma output_is_scaled_highlight_witness :
  Shader.v4w (Shader.main (Shader.mkvec2 5 24) (fun _ => Shader.mkvec3 24 24 1)) <= 1.
Proof.
  destruct (output_is_scaled_highlight (Shader.mkvec2 5 24)
              (fun _ => Shader.mkvec3 24 24 1)) as (_ & _ & _ & _ & _ & H).
  apply H. intros i _. simpl. lra.
Defined.

Lemma greatest_map_le (f g : nat -> R) (idx : list nat) :
  (forall i, i ∈ idx -> f i <= g i) ->
  Shader.greatest (map f idx) <= Shader.greatest (map g idx).
Proof.
  induction idx as [|i idx IH]; intros H; simpl; [lra|].
  apply Rmax_lub.
  - eapply Rle_trans; [apply H; left | apply Rmax_l].
  - eapply Rle_trans; [apply IH; intros j Hj; apply H; by right | apply Rmax_r].
Qed.

(** X17.  More trail never dims a pixel.  If each slot either keeps its
    position with an influence that is not lower, or goes from no influence
    to a non-negative one anywhere, then the alpha of every pixel is at
    least what it was. *)
Theorem more_trail_never_dims (fc : Shader.vec2) (u u' : nat -> Shader.vec3) :
  (forall i : nat,
     (i < Shader.TRAIL_MAX)%nat ->
     (Shader.xy (u' i) = Shader.xy (u i) /\ Shader.v3z (u i) <= Shader.v3z (u' i)) \/
     (Shader.v3z (u i) <= 0 /\ 0 <= Shader.v3z (u' i))) ->
  glow fc u <= glow fc u' /\
  Shader.v4w (Shader.main fc u) <= Shader.v4w (Shader.main fc u').
Proof.
  intros H.
  assert (glow fc u <= glow fc u') as Hg.
  { unfold glow, Shader.contributions. apply greatest_map_le.
    intros i Hi. apply list_elem_of_In, in_seq in Hi.
    assert (i < Shader.TRAIL_MAX)%nat as Hlt by lia.
    unfold Shader.contribution.
    pose proof (falloff_unit (Shader.length
      (Shader.sub2 (Shader.cell_center fc) (Shader.xy (u i))))) as [Hf _].
    pose proof (falloff_unit (Shader.length
      (Shader.sub2 (Shader.cell_center fc) (Shader.xy (u' i))))) as [Hf' _].
    destruct (H i Hlt) as [[Hp Hz]|[Hz Hz']].
    - rewrite Hp. by apply Rmult_le_compat_r.
    - apply Rle_trans with 0.
      + rewrite <- (Rmult_0_l (Shader.falloff (Shader.length
          (Shader.sub2 (Shader.cell_center fc) (Shader.xy (u i)))))).
        by apply Rmult_le_compat_r.
      + by apply Rmult_le_pos. }
  split; [done|].
  rewrite !main_cases. fold (glow fc u) (glow fc u').
  destruct (Rgt_dec (Shader.sdf fc) 0); [simpl; lra|].
  destruct (Rgt_dec (Shader.sdf fc) (- Shader.BORDER_WIDTH)); [|simpl; lra].
  unfold Shader.mix, Shader.vec4_of, Shader.COLOR_BORDER_HOVER.
  cbn [Shader.v4w]. lra.
Qed.

Lemma more_trail_never_dims_witness :
  let fc := Shader.mkvec2 5 24 in
  Shader.v4w (Shader.main fc (fun _ => Shader.mkvec3 0 0 0)) <=
  Shader.v4w (Shader.main fc (fun _ => Shader.mkvec3 24 24 1)).
Proof.
  intros fc.
  refine (proj2 (more_trail_never_dims fc (fun _ => Shader.mkvec3 0 0 0)
                   (fun _ => Shader.mkvec3 24 24 1) _)).
  intros i _. right. simpl. lra.
Defined.

End ShaderExtras.

(** ** The fullscreen quad *)

(** X18.  The six vertices drawn by [gl.drawArrays(gl.TRIANGLES, 0, 6)]
    make exactly two triangles, and together they cover clip space and
    nothing else: a point lies in one of them exactly when both of its
    coordinates are between -1 and 1.  So the fragment shader runs on every
    pixel of the canvas. *)
Theorem quad_covers_clip_space (a b : Q) :
  triangle vertices 0 2 = None /\
  ((-1 <= a <= 1 /\ -1 <= b <= 1) <->
   exists (j : nat) (tri : (Q * Q) * (Q * Q) * (Q * Q)),
     (j < 2)%nat /\ triangle vertices 0 j = Some tri /\ inside tri a b).
Proof.
  split; [reflexivity|]. split.
  - intros [[Ha0 Ha1] [Hb0 Hb1]].
    destruct (Qlt_le_dec 0 (a + b)) as [Hs|Hs].
    + exists 1%nat, ((-1, 1), (1, -1), (1, 1)). split; [lia|]. split; [reflexivity|].
      exists ((1 - a) * (1 # 2)), ((1 - b) * (1 # 2)), ((a + b) * (1 # 2)).
      cbn [fst snd]. repeat split; Lqa.lra.
    + exists 0%nat, ((-1, -1), (1, -1), (-1, 1)). split; [lia|]. split; [reflexivity|].
      exists (- (a + b) * (1 # 2)), ((a + 1) * (1 # 2)), ((b + 1) * (1 # 2)).
      cbn [fst snd]. repeat split; Lqa.lra.
  - intros (j & tri & Hj & Htri & Hin).
    destruct j as [|[|j]]; [| |lia]; simpl in Htri; inversion Htri; subst tri;
      destruct Hin as (w1 & w2 & w3 & H1 & H2 & H3 & Hsum & Ha & Hb);
      cbn [fst snd] in Ha, Hb; repeat split; Lqa.lra.
Qed.

(** ** Canvas size and the last render *)

Lemma same_surface_refl (s : State) : same_surface s s.
Proof. by split. Qed.

Lemma same_surface_trans (s1 s2 s3 : State) :
  same_surface s1 s2 -> same_surface s2 s3 -> same_surface s1 s3.
Proof.
  intros [H1 D1] [H2 D2]. split; [by rewrite H2|]. intros H. by apply D2, D1.
Qed.

Lemma drawn_render (now : Q) (s : State) : drawn (render now s).
Proof. by exists (gl_calls s). Qed.

Lemma same_surface_startLoop (s : State) : same_surface s (startLoop s).
Proof. unfold startLoop. destruct (rafId s); by split. Qed.

Lemma same_surface_record (px py now : Q) (s : State) :
  same_surface s (record px py now s).
Proof.
  destruct (accepts_dec px py (trail s)) as [H|H].
  - rewrite record_accepted by done.
    apply same_surface_trans
      with (set_trail (take TRAIL_MAX (mkTrailPoint px py now :: trail s)) s);
      [by split | apply same_surface_startLoop].
  - rewrite record_rejected by done. apply same_surface_refl.
Qed.

Lemma same_surface_tick (now : Q) (s : State) : same_surface s (tick now s).
Proof.
  unfold tick. cbv zeta.
  set (s2 := render now (set_trail (expire (now - TRAIL_DURATION) (trail s)) s)).
  assert (drawn s2) as Hd by apply drawn_render.
  assert (canvas_size s2 = canvas_size s) as Hc by reflexivity.
  destruct (trail s2); (split; [exact Hc|]); intros _;
    destruct Hd as [rest Hr]; exists rest; exact Hr.
Qed.

Lemma same_surface_frames (now : Q) (callbacks : list nat) :
  forall s : State,
    same_surface s (fold_left (fun s' _ => tick now s') callbacks s).
Proof.
  induction callbacks as [|c l IH]; intros s; simpl; [apply same_surface_refl|].
  eapply same_surface_trans; [apply same_surface_tick | apply IH].
Qed.

Lemma surface_step (ev : Event) (s : State) :
  drawn s ->
  drawn (step ev s) /\
  canvas_size (step ev s) = last_size (canvas_size s) [ev].
Proof.
  intros Hd. destruct ev as [e rect now| |w h now|now]; simpl.
  - destruct (same_surface_record (pointer_x e rect s) (pointer_y e rect s) now s)
      as [Hc Hd']. split; [by apply Hd' | exact Hc].
  - destruct (same_surface_startLoop s) as [Hc Hd']. split; [by apply Hd' | exact Hc].
  - split; [apply drawn_render | reflexivity].
  - unfold animationFrame.
    destruct (same_surface_frames now (pending s) (take_callbacks s)) as [Hc Hd'].
    split; [apply Hd'; destruct Hd as [rest Hr]; by exists rest | exact Hc].
Qed.

Lemma surface_run (evs : list Event) :
  forall s : State,
    drawn s ->
    drawn (run evs s) /\ canvas_size (run evs s) = last_size (canvas_size s) evs.
Proof.
  unfold run. induction evs as [|ev evs IH]; intros s Hd; simpl; [done|].
  destruct (surface_step ev s Hd) as [Hd' Hc].
  destruct (IH (step ev s) Hd') as [Hd'' Hc']. split; [done|].
  rewrite Hc', Hc. by destruct ev.
Qed.

(** X19.  In every run the canvas has the size given by the most recent
    resize (the size of the container at mount time when there was none):
    no pointer handler and no tick changes it.  And the last render always
    matches the state: the most recent WebGL calls are a viewport of the
    current canvas size, a clear, an upload of the current uniform buffer
    and one draw of six vertices. *)
Theorem canvas_follows_container (evs : list Event) (h0 : nat) (w h : Z) (now0 : Q) :
  let s := run evs (init_state h0 w h now0) in
  (canvas_width s, canvas_height s) = last_size (w, h) evs /\
  exists rest : list GLCall,
    gl_calls s =
      DrawArrays 0 6 :: Uniform3fv (trailData s) :: Clear ::
      Viewport 0 0 (canvas_width s) (canvas_height s) :: rest.
Proof.
  intros s.
  destruct (surface_run evs (init_state h0 w h now0)) as [Hd Hc].
  - apply drawn_render.
  - split; [exact Hc | exact Hd].
Qed.
